(** * Achievement monitor: unlock-state reconciliation, blacklist and details cache

    A shallow embedding of [AchievementMonitor] (achievement_monitor.py):
    the multi-language fetch of a player's unlocked achievements, the
    permanent blacklist, the durable unlock-state table with its diff, and
    the details resolver with its cache and its degraded path.

    Python values that come out of [json.loads] are modelled by [value];
    exceptions by [result]; the monitor object, its two JSON files and the
    log of HTTP requests by [monitor]; the remote API and the file system by
    an oracle [env]. Console output ([print]) has no effect on any result
    and is left out. *)

From Stdlib Require Import ZArith String Ascii List.
From stdpp Require Import base decidable option list strings pretty gmap.

Set Default Proof Using "Type".
Set Warnings "-register-all".

(** ** Python values *)

(** What [json.loads] can return. A float is the finite double [m * 2^e];
    the non-finite literals that Python's decoder also accepts are outside
    the model. A dict keeps its items in insertion order; the decoder
    leaves one item per key, and a lookup takes the first item with the
    key. *)
Inductive value : Type :=
  | VNone
  | VBool (b : bool)
  | VInt (z : Z)
  | VFloat (m e : Z)
  | VStr (s : string)
  | VList (l : list value)
  | VDict (d : list (string * value)).

Inductive exc : Type :=
  | KeyError | TypeError | AttributeError | JSONDecodeError | RequestError.

(** The outcome of evaluating a Python expression. *)
Inductive result (A : Type) : Type :=
  | Ok (a : A)
  | Raise (e : exc).
Arguments Ok {A} a.
Arguments Raise {A} e.

Global Instance result_ret : MRet result := λ A a, Ok a.
Global Instance result_bind : MBind result := λ A B f x,
  match x with Ok a => f a | Raise e => Raise e end.

(** [bool(v)] *)
Definition truthy (v : value) : bool :=
  match v with
  | VNone => false
  | VBool b => b
  | VInt z => negb (z =? 0)%Z
  | VFloat m _ => negb (m =? 0)%Z
  | VStr s => negb (String.eqb s "")
  | VList l => match l with [] => false | _ => true end
  | VDict d => match d with [] => false | _ => true end
  end.

(** [v == 1]: numeric equality across bool, int and float. *)
Definition eq_one (v : value) : bool :=
  match v with
  | VBool b => b
  | VInt z => (z =? 1)%Z
  | VFloat m e =>
      if (0 <=? e)%Z then (m * 2 ^ e =? 1)%Z else (m =? 2 ^ (- e))%Z
  | _ => false
  end.

Fixpoint dict_lookup (d : list (string * value)) (k : string) : option value :=
  match d with
  | [] => None
  | (k', v) :: d' => if String.eqb k' k then Some v else dict_lookup d' k
  end.

Fixpoint is_prefix (p s : string) : bool :=
  match p, s with
  | EmptyString, _ => true
  | String a p', String b s' => Ascii.eqb a b && is_prefix p' s'
  | String _ _, EmptyString => false
  end.

Fixpoint is_substring (p s : string) : bool :=
  is_prefix p s ||
  match s with
  | EmptyString => false
  | String _ s' => is_substring p s'
  end.

Definition is_VStr (k : string) (v : value) : bool :=
  match v with VStr s => String.eqb s k | _ => false end.

(** [k in v] for a string literal [k]: key test on a dict, element test on
    a list, substring test on a str, TypeError on anything else. *)
Definition py_in (k : string) (v : value) : result bool :=
  match v with
  | VDict d => Ok (bool_decide (is_Some (dict_lookup d k)))
  | VList l => Ok (existsb (is_VStr k) l)
  | VStr s => Ok (is_substring k s)
  | _ => Raise TypeError
  end.

(** [v[k]] for a string literal [k]. *)
Definition py_item (v : value) (k : string) : result value :=
  match v with
  | VDict d => match dict_lookup d k with Some x => Ok x | None => Raise KeyError end
  | _ => Raise TypeError
  end.

(** [v.get(k, dflt)]: only a dict has the method. [v.get(k)] is
    [v.get(k, None)]. *)
Definition py_get (v : value) (k : string) (dflt : value) : result value :=
  match v with
  | VDict d => Ok (default dflt (dict_lookup d k))
  | _ => Raise AttributeError
  end.

Fixpoint chars (s : string) : list value :=
  match s with
  | EmptyString => []
  | String a s' => VStr (String a EmptyString) :: chars s'
  end.

(** [for x in v]: the elements of a list, the keys of a dict, the
    characters of a str. *)
Definition py_iter (v : value) : result (list value) :=
  match v with
  | VList l => Ok l
  | VDict d => Ok (map (λ kv, VStr kv.1) d)
  | VStr s => Ok (chars s)
  | _ => Raise TypeError
  end.

(** ** Hashable values: members of a set, keys of a dict *)

(** Python compares and hashes numbers by value, so [True], [1] and [1.0]
    are one key; [KFloat m e] stands for a non-integral [m * 2^e] with [m]
    odd and [e] negative. *)
Inductive pykey : Type :=
  | KNone
  | KInt (z : Z)
  | KFloat (m e : Z)
  | KStr (s : string).

Global Instance pykey_eq_dec : EqDecision pykey.
Proof. solve_decision. Defined.

Definition pykey_enc (k : pykey) : unit + Z + (Z * Z) + string :=
  match k with
  | KNone => inl (inl (inl tt))
  | KInt z => inl (inl (inr z))
  | KFloat m e => inl (inr (m, e))
  | KStr s => inr s
  end.

Definition pykey_dec (x : unit + Z + (Z * Z) + string) : pykey :=
  match x with
  | inl (inl (inl _)) => KNone
  | inl (inl (inr z)) => KInt z
  | inl (inr (m, e)) => KFloat m e
  | inr s => KStr s
  end.

Global Instance pykey_countable : Countable pykey.
Proof.
  refine (inj_countable' pykey_enc pykey_dec _).
  by intros [].
Defined.

(** Number of trailing zero bits of a non-zero integer. *)
Definition trailing_zeros (m : Z) : Z := Z.log2 (Z.land m (- m)).

Definition float_key (m e : Z) : pykey :=
  if (0 <=? e)%Z then KInt (m * 2 ^ e)
  else if (m =? 0)%Z then KInt 0
  else
    let t := Z.min (trailing_zeros m) (- e) in
    if (e + t =? 0)%Z then KInt (Z.shiftr m t)
    else KFloat (Z.shiftr m t) (e + t).

(** Using [v] as a set member or a dict key: lists and dicts are
    unhashable. *)
Definition hashable (v : value) : result pykey :=
  match v with
  | VNone => Ok KNone
  | VBool b => Ok (KInt (if (b : bool) then 1 else 0))
  | VInt z => Ok (KInt z)
  | VFloat m e => Ok (float_key m e)
  | VStr s => Ok (KStr s)
  | VList _ | VDict _ => Raise TypeError
  end.

(** ** [str] and [repr] *)

Definition dquote : ascii := "034"%char.
Definition squote : ascii := "'"%char.
Definition backslash : ascii := "\"%char.

Fixpoint contains_char (c : ascii) (s : string) : bool :=
  match s with
  | EmptyString => false
  | String a s' => Ascii.eqb a c || contains_char c s'
  end.

Definition hex_digit (n : N) : ascii :=
  match n with
  | 0 => "0" | 1 => "1" | 2 => "2" | 3 => "3" | 4 => "4" | 5 => "5"
  | 6 => "6" | 7 => "7" | 8 => "8" | 9 => "9" | 10 => "a" | 11 => "b"
  | 12 => "c" | 13 => "d" | 14 => "e" | _ => "f"
  end%char%N.

(** One character of a str inside [repr]. Bytes above 127 belong to
    printable non-ASCII text and are kept. *)
Definition repr_char (quote c : ascii) : string :=
  let n := N_of_ascii c in
  if Ascii.eqb c quote || Ascii.eqb c backslash then String backslash (String c "")
  else if (n =? 9)%N then String backslash "t"
  else if (n =? 10)%N then String backslash "n"
  else if (n =? 13)%N then String backslash "r"
  else if (n <? 32)%N || (n =? 127)%N then
    String backslash (String "x" (String (hex_digit (n / 16)) (String (hex_digit (n mod 16)) "")))
  else String c "".

Fixpoint repr_body (quote : ascii) (s : string) : string :=
  match s with
  | EmptyString => EmptyString
  | String c s' => repr_char quote c +:+ repr_body quote s'
  end.

(** [repr(s)] of a str: single quotes, unless the text has a single quote
    and no double quote. *)
Definition repr_str (s : string) : string :=
  let quote :=
    if contains_char squote s && negb (contains_char dquote s)
    then dquote else squote in
  String quote (repr_body quote s +:+ String quote "").

(** The game id as callers pass it: [check_new_achievements] declares an
    int, [clear_game_achievements] a str. *)
Inductive appid_t : Type :=
  | AppInt (z : Z)
  | AppStr (s : string).

Global Instance appid_eq_dec : EqDecision appid_t.
Proof. solve_decision. Defined.

Global Instance appid_countable : Countable appid_t.
Proof.
  refine (inj_countable'
    (λ a, match a with AppInt z => inl z | AppStr s => inr s end)
    (λ x, match x with inl z => AppInt z | inr s => AppStr s end) _).
  by intros [].
Defined.

(** [str(appid)] *)
Definition str_appid (a : appid_t) : string :=
  match a with AppInt z => pretty z | AppStr s => s end.

(** [repr(appid)] *)
Definition repr_appid (a : appid_t) : string :=
  match a with AppInt z => pretty z | AppStr s => repr_str s end.

(** [str((group_id, steamid, appid))]: a tuple prints the [repr] of its
    items. *)
Definition str_key (group_id steamid : string) (appid : appid_t) : string :=
  "(" +:+ repr_str group_id +:+ ", " +:+ repr_str steamid +:+ ", "
      +:+ repr_appid appid +:+ ")".

(** ** The records the resolver builds *)

(** An entry of the local [achievements] dict built from the schema. *)
Record schema_entry : Type := {
  se_name : value;
  se_description : value;
  se_icon : value;
  se_icon_gray : value }.

(** An entry of [details]: apiname -> {name, description, icon, icon_gray,
    percent}. *)
Record detail : Type := {
  name : value;
  description : value;
  icon : value;
  icon_gray : value;
  percent : value }.

(** ** The remote API and the file system *)

Inductive request : Type :=
  | GetPlayerAchievements (key steamid : string) (appid : appid_t) (l : string)
  | GetSchemaForGame (appid : appid_t) (key l : string)
  | GetGlobalAchievementPercentagesForApp (gameid : appid_t).

(** What [await client.get(...)] does: it raises
    (timeout, connection error), or it returns a response with a status
    code and a body that [response.json()] decodes ([Some]) or rejects. *)
Inductive reply : Type :=
  | Response (status_code : Z) (json : option value)
  | Failure (e : exc).

(** A JSON file on disk. [Damaged] is what a failed [json.dump] leaves
    behind after [open(path, "w")] has truncated the file: [json.load]
    raises on it. *)
Inductive file (A : Type) : Type :=
  | Missing
  | Content (a : A)
  | Damaged.
Arguments Missing {A}.
Arguments Content {A} a.
Arguments Damaged {A}.

Inductive write_outcome : Type := Written | OpenFailed | DumpFailed.

(** The environment: the reply to the [n]-th HTTP request and the outcome
    of the [n]-th file write of the run. *)
Record env : Type := {
  api : nat → request → reply;
  disk : nat → write_outcome }.

(** The monitor object ([self]), its two files, and what it has done so
    far. The blacklist holds the strings of the blacklist file; the table
    maps [str((group_id, steamid, appid))] to a list of achievement names. *)
Record monitor : Type := {
  achievement_blacklist : gset string;
  initial_achievements : gmap string (list pykey);
  details_cache : gmap (string * appid_t) (gmap pykey detail);
  blacklist_file : file (list string);
  achievements_file : file (gmap string (list pykey));
  requests : list request;
  writes : nat }.

Definition set_blacklist (b : gset string) (st : monitor) : monitor :=
  {| achievement_blacklist := b;
     initial_achievements := initial_achievements st;
     details_cache := details_cache st;
     blacklist_file := blacklist_file st;
     achievements_file := achievements_file st;
     requests := requests st;
     writes := writes st |}.

Definition set_initial (t : gmap string (list pykey)) (st : monitor) : monitor :=
  {| achievement_blacklist := achievement_blacklist st;
     initial_achievements := t;
     details_cache := details_cache st;
     blacklist_file := blacklist_file st;
     achievements_file := achievements_file st;
     requests := requests st;
     writes := writes st |}.

Definition set_details_cache (c : gmap (string * appid_t) (gmap pykey detail))
    (st : monitor) : monitor :=
  {| achievement_blacklist := achievement_blacklist st;
     initial_achievements := initial_achievements st;
     details_cache := c;
     blacklist_file := blacklist_file st;
     achievements_file := achievements_file st;
     requests := requests st;
     writes := writes st |}.

(** [open(path, "w")] then [json.dump(new, f)], whatever the outcome. *)
Definition write_file {A} (old : file A) (new : A) (o : write_outcome) : file A :=
  match o with
  | Written => Content new
  | OpenFailed => old
  | DumpFailed => Damaged
  end.

(** The state monad of the monitor's methods. *)
Definition M (A : Type) : Type := monitor → A * monitor.

Global Instance M_ret : MRet M := λ A a st, (a, st).
Global Instance M_bind : MBind M := λ A B f m st,
  match m st with (a, st') => f a st' end.

Definition gets {A} (f : monitor → A) : M A := λ st, (f st, st).
Definition modify (f : monitor → monitor) : M unit := λ st, (tt, f st).

(** How a loop body or a loop ends: with a [return] of the enclosing
    function, or by falling through to the code after it. *)
Inductive flow (A : Type) : Type :=
  | Return (a : A)
  | Continue.
Arguments Return {A} a.
Arguments Continue {A}.

(** ** Loading and saving *)

(** [_load_blacklist] *)
Definition _load_blacklist (f : file (list string)) : gset string :=
  match f with
  | Content l => list_to_set l
  | Missing | Damaged => ∅
  end.

(** [_load_achievements_cache] *)
Definition _load_achievements_cache (f : file (gmap string (list pykey)))
    : gmap string (list pykey) :=
  match f with
  | Content t => t
  | Missing | Damaged => ∅
  end.

(** [__init__]: a monitor over the two files of [data_dir]. *)
Definition init (bf : file (list string))
    (af : file (gmap string (list pykey))) : monitor :=
  {| achievement_blacklist := _load_blacklist bf;
     initial_achievements := _load_achievements_cache af;
     details_cache := ∅;
     blacklist_file := bf;
     achievements_file := af;
     requests := [];
     writes := 0 |}.

(** ** Reading a GetPlayerAchievements payload *)

(** [{ach["apiname"] for ach in achievements if ach.get("achieved", 0) == 1}] *)
Fixpoint unlocked_names (achievements : list value) : result (gset pykey) :=
  match achievements with
  | [] => Ok ∅
  | ach :: rest =>
      achieved ← py_get ach "achieved" (VInt 0);
      this ← (if eq_one achieved
              then apiname ← py_item ach "apiname";
                   k ← hashable apiname;
                   Ok ({[ k ]} : gset pykey)
              else Ok ∅);
      others ← unlocked_names rest;
      Ok (this ∪ others)
  end.

(** [any(ach.get("description") for ach in achievements)] *)
Fixpoint any_description (achievements : list value) : result bool :=
  match achievements with
  | [] => Ok false
  | ach :: rest =>
      d ← py_get ach "description" VNone;
      if truthy d then Ok true else any_description rest
  end.

(** ["playerstats" in data and "achievements" in data["playerstats"]] *)
Definition has_player_achievements (data : value) : result bool :=
  b ← py_in "playerstats" data;
  if (b : bool) then ps ← py_item data "playerstats"; py_in "achievements" ps
  else Ok false.

(** [data["playerstats"]["achievements"]] *)
Definition player_achievements (data : value) : result value :=
  ps ← py_item data "playerstats"; py_item ps "achievements".

(** Lines 84-94 of [get_player_achievements]: [Some unlocked] when the
    body reaches [return unlocked], [None] when it falls through. *)
Definition read_unlocked (data : value) : result (option (gset pykey)) :=
  b ← has_player_achievements data;
  if (b : bool) then
    achievements ← player_achievements data;
    items ← py_iter achievements;
    unlocked ← unlocked_names items;
    has_desc ← any_description items;
    if (has_desc : bool) then Ok (Some unlocked) else Ok None
  else Ok None.

(** What one pass through the [try] block of [get_player_achievements]
    does with the reply to its request. *)
Inductive attempt : Type :=
  | Accepted (unlocked : gset pykey)
  | Denied
  | Failed.

Definition attempt_outcome (r : reply) : attempt :=
  match r with
  | Failure _ => Failed
  | Response status_code body =>
      if (status_code =? 200)%Z then
        match body with
        | None => Failed
        | Some data =>
            match read_unlocked data with
            | Ok (Some unlocked) => Accepted unlocked
            | Ok None | Raise _ => Failed
            end
        end
      else if (status_code =? 401)%Z then Denied
      else Failed
  end.

(** ** Reading a GetSchemaForGame payload *)

(** [to_icon_url(val)] *)
Definition to_icon_url (appid : appid_t) (val : value) : result value :=
  if negb (truthy val) then Ok VNone
  else match val with
       | VStr s =>
           if is_prefix "http://" s || is_prefix "https://" s then Ok val
           else Ok (VStr ("https://cdn.akamai.steamstatic.com/steamcommunity/public/images/apps/"
                          +:+ str_appid appid +:+ "/" +:+ s +:+ ".jpg"))
       | _ => Raise AttributeError
       end.

(** [ach.get(k, ach[k'])]: the method is looked up, then the default is
    evaluated, then the call is made. *)
Definition py_get_item (ach : value) (k k' : string) : result value :=
  match ach with
  | VDict _ => dflt ← py_item ach k'; py_get ach k dflt
  | _ => Raise AttributeError
  end.

(** One [achievements[ach["name"]] = {...}] of the schema loop. *)
Definition schema_store (appid : appid_t) (achievements : gmap pykey schema_entry)
    (ach : value) : result (gmap pykey schema_entry) :=
  n ← py_get_item ach "displayName" "name";
  d ← py_get ach "description" (VStr "");
  i ← py_get ach "icon" VNone;
  i' ← to_icon_url appid i;
  g ← py_get ach "icongray" VNone;
  g' ← to_icon_url appid g;
  apiname ← py_item ach "name";
  k ← hashable apiname;
  Ok (<[ k := {| se_name := n; se_description := d; se_icon := i'; se_icon_gray := g' |} ]>
        achievements).

Fixpoint schema_loop (appid : appid_t) (items : list value)
    (achievements : gmap pykey schema_entry) : result (gmap pykey schema_entry) :=
  match items with
  | [] => Ok achievements
  | ach :: rest =>
      achievements' ← schema_store appid achievements ach;
      schema_loop appid rest achievements'
  end.

(** Lines 174-188: the local [achievements] dict. *)
Definition read_schema (appid : appid_t) (schema : value)
    : result (gmap pykey schema_entry) :=
  b ← py_in "game" schema;
  b' ← (if (b : bool) then g ← py_item schema "game"; py_in "availableGameStats" g
        else Ok false);
  if (b' : bool) then
    g ← py_item schema "game";
    s ← py_item g "availableGameStats";
    l ← py_get s "achievements" (VList []);
    items ← py_iter l;
    schema_loop appid items ∅
  else Ok ∅.

(** ** Reading a GetGlobalAchievementPercentagesForApp payload *)

Fixpoint percents_loop (items : list value) (percents : gmap pykey value)
    : result (gmap pykey value) :=
  match items with
  | [] => Ok percents
  | ach :: rest =>
      p ← py_get ach "percent" VNone;
      n ← py_item ach "name";
      k ← hashable n;
      percents_loop rest (<[ k := p ]> percents)
  end.

(** Lines 199-202, from [stats]. *)
Definition read_percents (stats : value) : result (gmap pykey value) :=
  b ← py_in "achievementpercentages" stats;
  b' ← (if (b : bool) then a ← py_item stats "achievementpercentages"; py_in "achievements" a
        else Ok false);
  if (b' : bool) then
    a ← py_item stats "achievementpercentages";
    l ← py_item a "achievements";
    items ← py_iter l;
    percents_loop items ∅
  else Ok ∅.

(** Lines 190-202, from the reply to the percentages request that did
    arrive: a status other than 200 gives no percents; a body that does
    not decode is read as [{}]. *)
Definition percents_of (status_code : Z) (body : option value)
    : result (gmap pykey value) :=
  if negb (status_code =? 200)%Z then Ok ∅
  else read_percents (default (VDict []) body).

(** Lines 203-210: [details[apiname] = {...}] for every item of
    [achievements]. *)
Definition merge_details (achievements : gmap pykey schema_entry)
    (percents : gmap pykey value) (details : gmap pykey detail)
    : gmap pykey detail :=
  map_imap (λ apiname ach,
      Some {| name := se_name ach;
              description := se_description ach;
              icon := se_icon ach;
              icon_gray := se_icon_gray ach;
              percent := default VNone (percents !! apiname) |})
    achievements ∪ details.

(** [any(a.get("description") for a in achievements.values())] *)
Definition any_schema_description (achievements : gmap pykey schema_entry) : bool :=
  bool_decide (∃ k a, achievements !! k = Some a ∧ truthy (se_description a) = true).

(** ** The methods of [AchievementMonitor] *)

Section Methods.
Variable E : env.

(** [await client.get(...)]: the request is logged and the environment
    answers. *)
Definition http_get (r : request) : M reply := λ st,
  (api E (length (requests st)) r,
   {| achievement_blacklist := achievement_blacklist st;
      initial_achievements := initial_achievements st;
      details_cache := details_cache st;
      blacklist_file := blacklist_file st;
      achievements_file := achievements_file st;
      requests := requests st ++ [r];
      writes := writes st |}).

(** [_save_blacklist]: an I/O error is swallowed. *)
Definition _save_blacklist : M unit := λ st,
  (tt,
   {| achievement_blacklist := achievement_blacklist st;
      initial_achievements := initial_achievements st;
      details_cache := details_cache st;
      blacklist_file :=
        write_file (blacklist_file st) (elements (achievement_blacklist st))
          (disk E (writes st));
      achievements_file := achievements_file st;
      requests := requests st;
      writes := S (writes st) |}).

(** [_save_achievements_cache]: an I/O error is swallowed. *)
Definition _save_achievements_cache : M unit := λ st,
  (tt,
   {| achievement_blacklist := achievement_blacklist st;
      initial_achievements := initial_achievements st;
      details_cache := details_cache st;
      blacklist_file := blacklist_file st;
      achievements_file :=
        write_file (achievements_file st) (initial_achievements st)
          (disk E (writes st));
      requests := requests st;
      writes := S (writes st) |}).

(** [for attempt in range(n)] of [get_player_achievements], for one
    language. *)
Fixpoint attempts (n : nat) (req : request) : M (flow (option (gset pykey))) :=
  match n with
  | O => mret Continue
  | S n' =>
      r ← http_get req;
      match attempt_outcome r with
      | Accepted unlocked => mret (Return (Some unlocked))
      | Denied => mret (Return None)
      | Failed => attempts n' req
      end
  end.

(** [for lang in lang_list] of [get_player_achievements]. *)
Fixpoint languages (lang_list : list string) (api_key steamid : string)
    (appid : appid_t) : M (flow (option (gset pykey))) :=
  match lang_list with
  | [] => mret Continue
  | lang :: rest =>
      f ← attempts 3 (GetPlayerAchievements api_key steamid appid lang);
      match f with
      | Return r => mret (Return r)
      | Continue => languages rest api_key steamid appid
      end
  end.

(** [get_player_achievements]. [None] is Python's [None]. The attribute
    [achievement_blacklist] exists once [__init__] has run, so the
    [hasattr] test holds. The flag [all_failed] is cleared only on the
    line before [return unlocked], so it still holds when the loops fall
    through. *)
Definition get_player_achievements (api_key group_id steamid : string)
    (appid : appid_t) : M (option (gset pykey)) :=
  blacklist ← gets achievement_blacklist;
  if bool_decide (str_appid appid ∈ blacklist) then mret None
  else
    let all_failed := true in
    f ← languages ["schinese"; "english"; "en"] api_key steamid appid;
    match f with
    | Return r => mret r
    | Continue =>
        if all_failed then
          modify (λ st, set_blacklist ({[ str_appid appid ]} ∪ achievement_blacklist st) st);;
          _save_blacklist;;
          mret None
        else mret None
    end.

(** [check_new_achievements] *)
Definition check_new_achievements (api_key group_id steamid : string)
    (appid : appid_t) (player_name game_name : string) : M (gset pykey) :=
  let key := str_key group_id steamid appid in
  current ← get_player_achievements api_key group_id steamid appid;
  match current with
  | None => mret ∅
  | Some current_achievements =>
      table ← gets initial_achievements;
      let initial := default [] (table !! key) in
      let new_achievements := current_achievements ∖ list_to_set initial in
      modify (λ st, set_initial (<[ key := elements current_achievements ]>
                                   (initial_achievements st)) st);;
      _save_achievements_cache;;
      mret new_achievements
  end.

(** [clear_game_achievements] *)
Definition clear_game_achievements (group_id steamid : string)
    (appid : appid_t) : M unit :=
  let key := str_key group_id steamid appid in
  table ← gets initial_achievements;
  if bool_decide (is_Some (table !! key)) then
    modify (λ st, set_initial (delete key (initial_achievements st)) st);;
    _save_achievements_cache
  else mret tt.

(** *** The details resolver *)

(** One [details[ach["apiname"]] = {...}] of the degraded loop. *)
Definition degraded_store (details : gmap pykey detail) (ach : value)
    : result (gmap pykey detail) :=
  n ← py_get_item ach "name" "apiname";
  d ← py_get ach "description" (VStr "");
  apiname ← py_item ach "apiname";
  k ← hashable apiname;
  Ok (<[ k := {| name := n; description := d; icon := VNone;
                 icon_gray := VNone; percent := VNone |} ]> details).

(** The degraded [for ach in ...] loop writes into [details] in place:
    what it stored before an exception stays stored. *)
Fixpoint degraded_fill (items : list value) (details : gmap pykey detail)
    : gmap pykey detail * result unit :=
  match items with
  | [] => (details, Ok tt)
  | ach :: rest =>
      match degraded_store details ach with
      | Ok details' => degraded_fill rest details'
      | Raise e => (details, Raise e)
      end
  end.

(** Lines 147-162, the inner [try] on a 200 reply; the boolean is
    [break]. *)
Definition degraded_read (body : option value) (details : gmap pykey detail)
    : gmap pykey detail * bool :=
  match body with
  | None => (details, false)
  | Some data =>
      match has_player_achievements data with
      | Ok true =>
          match (a ← player_achievements data; py_iter a) with
          | Ok items =>
              match degraded_fill items details with
              | (details', Ok _) =>
                  match any_description items with
                  | Ok true => (details', true)
                  | Ok false | Raise _ => (details', false)
                  end
              | (details', Raise _) => (details', false)
              end
          | Raise _ => (details, false)
          end
      | Ok false | Raise _ => (details, false)
      end
  end.

(** Lines 138-164, [for lang2 in lang_list]. The boolean tells that
    [client.get] raised, which leaves the loop for the outer [except]. *)
Fixpoint degraded_loop (lang_list : list string) (api_key steamid : string)
    (appid : appid_t) (details : gmap pykey detail)
    : M (gmap pykey detail * bool) :=
  match lang_list with
  | [] => mret (details, false)
  | lang2 :: rest =>
      resp2 ← http_get (GetPlayerAchievements api_key steamid appid lang2);
      match resp2 with
      | Failure _ => mret (details, true)
      | Response status_code body =>
          if (status_code =? 200)%Z then
            match degraded_read body details with
            | (details', true) => mret (details', false)
            | (details', false) => degraded_loop rest api_key steamid appid details'
            end
          else degraded_loop rest api_key steamid appid details
      end
  end.

(** How one pass through the body of [for try_lang in lang_list] ends. *)
Inductive step : Type :=
  | StepReturn (r : gmap pykey detail)
  | StepBreak (details : gmap pykey detail)
  | StepNext (details : gmap pykey detail).

(** Lines 127-215, the body of [for try_lang in lang_list]. Every
    exception is caught by the [except] of line 214, after which the loop
    goes on with the next language. *)
Definition try_language (lang_list : list string) (appid : appid_t)
    (api_key steamid try_lang : string) (details : gmap pykey detail) : M step :=
  resp ← http_get (GetSchemaForGame appid api_key try_lang);
  match resp with
  | Failure _ => mret (StepNext details)
  | Response status_code body =>
      if (status_code =? 400)%Z then
        if negb (truthy (VStr api_key)) || negb (truthy (VStr steamid))
        then mret (StepReturn ∅)
        else
          d ← degraded_loop lang_list api_key steamid appid details;
          match d with
          | (details', true) => mret (StepNext details')
          | (details', false) => mret (StepReturn details')
          end
      else if negb (status_code =? 200)%Z then mret (StepNext details)
      else
        match body with
        | None => mret (StepNext details)
        | Some schema =>
            match read_schema appid schema with
            | Raise _ => mret (StepNext details)
            | Ok achievements =>
                resp2 ← http_get (GetGlobalAchievementPercentagesForApp appid);
                match resp2 with
                | Failure _ => mret (StepNext details)
                | Response status_code2 body2 =>
                    match percents_of status_code2 body2 with
                    | Raise _ => mret (StepNext details)
                    | Ok percents =>
                        let details' := merge_details achievements percents details in
                        if any_schema_description achievements
                        then mret (StepBreak details')
                        else mret (StepNext details')
                    end
                end
            end
        end
  end.

(** [for try_lang in lang_list]: [inl r] when the function returned [r]
    from inside the loop, [inr details] when the loop ended. *)
Fixpoint details_loop (todo lang_list : list string) (appid : appid_t)
    (api_key steamid : string) (details : gmap pykey detail)
    : M (gmap pykey detail + gmap pykey detail) :=
  match todo with
  | [] => mret (inr details)
  | try_lang :: rest =>
      s ← try_language lang_list appid api_key steamid try_lang details;
      match s with
      | StepReturn r => mret (inl r)
      | StepBreak details' => mret (inr details')
      | StepNext details' =>
          details_loop rest lang_list appid api_key steamid details'
      end
  end.

(** [get_achievement_details] *)
Definition get_achievement_details (group_id : string) (appid : appid_t)
    (lang api_key steamid : string) : M (gmap pykey detail) :=
  blacklist ← gets achievement_blacklist;
  if bool_decide (str_appid appid ∈ blacklist) then mret ∅
  else
    let cache_key := (group_id, appid) in
    cache ← gets details_cache;
    match cache !! cache_key with
    | Some cached => mret cached
    | None =>
        let lang_list := [lang; "schinese"; "english"; "en"] in
        e ← details_loop lang_list lang_list appid api_key steamid ∅;
        match e with
        | inl r => mret r
        | inr details =>
            modify (λ st, set_details_cache (<[ cache_key := details ]> (details_cache st)) st);;
            mret details
        end
    end.
End Methods.

(** ** Reading the state *)

(** The set that lines 225-226 of [check_new_achievements] read for an
    identity: [set(self.initial_achievements.get(str(key), set()))]. *)
Definition baseline (st : monitor) (group_id steamid : string) (appid : appid_t)
    : gset pykey :=
  list_to_set (default [] (initial_achievements st !! str_key group_id steamid appid)).

(** [st] after the requests [rs] have been sent. *)
Definition log_requests (rs : list request) (st : monitor) : monitor :=
  {| achievement_blacklist := achievement_blacklist st;
     initial_achievements := initial_achievements st;
     details_cache := details_cache st;
     blacklist_file := blacklist_file st;
     achievements_file := achievements_file st;
     requests := requests st ++ rs;
     writes := writes st |}.

(** The requests of a full run of the two loops of
    [get_player_achievements], in order: three per language. *)
Definition fetch_requests (api_key steamid : string) (appid : appid_t)
    : list request :=
  flat_map (λ lang, replicate 3 (GetPlayerAchievements api_key steamid appid lang))
    ["schinese"; "english"; "en"].

(** The two loops of [get_player_achievements] seen as one loop over the
    requests they send. *)
Fixpoint poll (E : env) (reqs : list request) : M (flow (option (gset pykey))) :=
  match reqs with
  | [] => mret Continue
  | req :: rest =>
      r ← http_get E req;
      match attempt_outcome r with
      | Accepted unlocked => mret (Return (Some unlocked))
      | Denied => mret (Return None)
      | Failed => poll E rest
      end
  end.

(** The public calls of the monitor, to speak of arbitrary call
    sequences. *)
Inductive call : Type :=
  | CallFetch (api_key group_id steamid : string) (appid : appid_t)
  | CallDetails (group_id : string) (appid : appid_t) (lang api_key steamid : string)
  | CallCheck (api_key group_id steamid : string) (appid : appid_t)
      (player_name game_name : string)
  | CallClear (group_id steamid : string) (appid : appid_t).

Definition run_call (E : env) (c : call) (st : monitor) : monitor :=
  match c with
  | CallFetch k g s a => (get_player_achievements E k g s a st).2
  | CallDetails g a l k s => (get_achievement_details E g a l k s st).2
  | CallCheck k g s a p n => (check_new_achievements E k g s a p n st).2
  | CallClear g s a => (clear_game_achievements E g s a st).2
  end.

Definition run_calls (E : env) (cs : list call) (st : monitor) : monitor :=
  foldl (λ st c, run_call E c st) st cs.

(** ** Test fixtures *)

Definition ach (apiname : string) (achieved : Z) (desc : string) : value :=
  VDict [("apiname", VStr apiname); ("achieved", VInt achieved);
         ("description", VStr desc)].

Definition player_payload (achievements : list value) : value :=
  VDict [("playerstats", VDict [("achievements", VList achievements)])].

Definition schema_ach (n display desc icon_id : string) : value :=
  VDict [("name", VStr n); ("displayName", VStr display);
         ("description", VStr desc); ("icon", VStr icon_id);
         ("icongray", VStr icon_id)].

Definition schema_payload (achievements : list value) : value :=
  VDict [("game", VDict [("availableGameStats",
           VDict [("achievements", VList achievements)])])].

Definition fresh : monitor := init Missing Missing.

Definition disk_ok : nat → write_outcome := λ _, Written.

(** A server on which the player has unlocked a, b and c. *)
Definition env_abc : env :=
  {| api := λ _ _, Response 200 (Some (player_payload
              [ach "a" 1 "first"; ach "b" 1 "second"; ach "c" 1 "third";
               ach "d" 0 "locked"]));
     disk := disk_ok |}.

(** The state that holds the baseline {a, b} for ("g", "s", 730): the one a
    first reconciliation leaves behind. *)
Definition env_ab_then (later : list value) : env :=
  {| api := λ n _,
       match n with
       | 0 => Response 200 (Some (player_payload [ach "a" 1 "first"; ach "b" 1 "second"]))
       | _ => Response 200 (Some (player_payload later))
       end;
     disk := disk_ok |}.

Definition after_first_check (E : env) : monitor :=
  (check_new_achievements E "key" "g" "s" (AppInt 730) "player" "game" fresh).2.

(** A server that answers every request with status 500. *)
Definition env_down : env :=
  {| api := λ _ _, Response 500 None; disk := disk_ok |}.

(** A server on which b, unlocked at the first poll, is locked again at
    the second. *)
Definition env_relock : env :=
  env_ab_then [ach "a" 1 "first"; ach "b" 0 "second"].

(** A monitor whose blacklist holds "730" and whose details cache holds a
    non-empty entry for ("g", 730). *)
Definition blacklisted_with_cache : monitor :=
  set_details_cache
    {[ ("g", AppInt 730) :=
         {[ KStr "a" := {| name := VStr "A"; description := VStr "first";
                           icon := VNone; icon_gray := VNone; percent := VNone |} ]} ]}
    (init (Content ["730"]) Missing).

(** A server that is down for the first four requests and then denies
    permission. *)
Definition env_private : env :=
  {| api := λ n _, if n <? 4 then Response 500 None else Response 401 None;
     disk := disk_ok |}.

(** A monitor started on an achievements file that holds a baseline under
    the key of ("g", "s", "730"), the key [check_new_achievements] writes
    when it is handed the appid as a str. *)
Definition restarted_on_str_key : monitor :=
  init Missing (Content {[ str_key "g" "s" (AppStr "730") := [KStr "x"] ]}).

Definition checked_with_int : monitor :=
  (check_new_achievements env_abc "key" "g" "s" (AppInt 730) "player" "game"
     restarted_on_str_key).2.

(** The schema endpoint rejects the game with 400; the player endpoint
    answers with described achievements. *)
Definition env_no_schema : env :=
  {| api := λ _ r,
       match r with
       | GetSchemaForGame _ _ _ => Response 400 None
       | GetPlayerAchievements _ _ _ _ =>
           Response 200 (Some (player_payload [ach "a" 1 "first"; ach "b" 0 "second"]))
       | GetGlobalAchievementPercentagesForApp _ => Response 200 None
       end;
     disk := disk_ok |}.

Definition degraded_record (apiname desc : string) : detail :=
  {| name := VStr apiname; description := VStr desc; icon := VNone;
     icon_gray := VNone; percent := VNone |}.

(** The schema endpoint describes two achievements; [percent_reply] is
    what the percentages request gets. *)
Definition env_schema (percent_reply : reply) : env :=
  {| api := λ _ r,
       match r with
       | GetSchemaForGame _ _ _ =>
           Response 200 (Some (schema_payload
             [schema_ach "a" "A" "first" "ia"; schema_ach "b" "B" "second" "ib"]))
       | GetPlayerAchievements _ _ _ _ => Response 500 None
       | GetGlobalAchievementPercentagesForApp _ => percent_reply
       end;
     disk := disk_ok |}.

Definition schema_record (display desc icon_id : string) (p : value) : detail :=
  {| name := VStr display; description := VStr desc;
     icon := VStr ("https://cdn.akamai.steamstatic.com/steamcommunity/public/images/apps/730/"
                   +:+ icon_id +:+ ".jpg");
     icon_gray := VStr ("https://cdn.akamai.steamstatic.com/steamcommunity/public/images/apps/730/"
                        +:+ icon_id +:+ ".jpg");
     percent := p |}.

Definition percent_payload : value :=
  VDict [("achievementpercentages", VDict [("achievements",
           VList [VDict [("name", VStr "a"); ("percent", VFloat 25 (-1))]])])].

(** ** [_wrap_text] *)

Section WrapText.
(** The width [draw.textbbox((0, 0), s, font=font)] reports for [s] in the
    font at hand, [bbox[2] - bbox[0]]: Pillow's measure, taken as given. *)
Variable text_width : string → Z.
Variable max_width : Z.

(** [for char in text] of [_wrap_text], then the final [if line]. *)
Fixpoint _wrap_text_loop (text line : string) (lines : list string) : list string :=
  match text with
  | EmptyString => if negb (String.eqb line "") then lines ++ [line] else lines
  | String char rest =>
      if (text_width (line +:+ String char "") <=? max_width)%Z
      then _wrap_text_loop rest (line +:+ String char "") lines
      else _wrap_text_loop rest (String char "")
             (if negb (String.eqb line "") then lines ++ [line] else lines)
  end.

(** [_wrap_text(text, font, max_width)] for a str [text]. *)
Definition _wrap_text (text : string) : list string :=
  if String.eqb text "" then [""] else _wrap_text_loop text "" [].
End WrapText.

(** [''.join(lines)] *)
Definition join_lines (lines : list string) : string :=
  foldr String.append "" lines.

(** ** Reading a quoted str back *)

(** The value of a hexadecimal digit, as [hex_digit] writes it. *)
Definition hex_value (c : ascii) : N :=
  let n := N_of_ascii c in
  if (48 <=? n)%N && (n <=? 57)%N then n - 48
  else if (97 <=? n)%N && (n <=? 102)%N then n - 87
  else 0.

(** Reads the text of a str literal up to its closing [quote] and gives
    the str it denotes and what follows the literal: the inverse of
    [repr_body], which the proof that table keys do not collide uses. *)
Fixpoint unrepr_body (quote : ascii) (t : string) : option (string * string) :=
  match t with
  | EmptyString => None
  | String c t1 =>
      if Ascii.eqb c quote then Some (EmptyString, t1)
      else if Ascii.eqb c backslash then
        match t1 with
        | EmptyString => None
        | String e t2 =>
            if Ascii.eqb e "x" then
              match t2 with
              | String h1 (String h2 t4) =>
                  match unrepr_body quote t4 with
                  | Some (s, r) =>
                      Some (String (ascii_of_N (16 * hex_value h1 + hex_value h2)) s, r)
                  | None => None
                  end
              | _ => None
              end
            else
              match unrepr_body quote t2 with
              | Some (s, r) =>
                  Some (String (if Ascii.eqb e "t" then "009"
                                else if Ascii.eqb e "n" then "010"
                                else if Ascii.eqb e "r" then "013"
                                else e)%char s, r)
              | None => None
              end
        end
      else
        match unrepr_body quote t1 with
        | Some (s, r) => Some (String c s, r)
        | None => None
        end
  end.

(** Reads a str literal from the front of [t]. *)
Definition unrepr (t : string) : option (string * string) :=
  match t with
  | EmptyString => None
  | String q t1 =>
      if Ascii.eqb q squote || Ascii.eqb q dquote then unrepr_body q t1 else None
  end.

(** A payload entry of the documented shape {apiname, achieved,
    description}. *)
Definition entry_value (e : string * Z * string) : value :=
  ach e.1.1 e.1.2 e.2.


(** A server whose Chinese payload carries no descriptions and whose
    English payload does. *)
Definition env_fallback : env :=
  {| api := λ _ r,
       match r with
       | GetPlayerAchievements _ _ _ l =>
           if String.eqb l "schinese"
           then Response 200 (Some (player_payload [ach "a" 1 ""; ach "b" 0 ""]))
           else Response 200 (Some (player_payload [ach "a" 1 "first"; ach "b" 0 "second"]))
       | _ => Response 500 None
       end;
     disk := disk_ok |}.

(** A reply to a schema request after which [try_language] goes on with
    the next language without having read anything: an exception, a status
    other than 200 and 400, or a 200 body that does not decode. *)
Definition schema_unavailable (r : reply) : bool :=
  match r with
  | Failure _ => true
  | Response status_code body =>
      if (status_code =? 400)%Z then false
      else if (status_code =? 200)%Z
           then match body with None => true | Some _ => false end
           else true
  end.

(** The two files hold what the monitor has in memory: a monitor started
    on them would load this blacklist and this table. *)
Definition synced (st : monitor) : Prop :=
  _load_blacklist (blacklist_file st) = achievement_blacklist st ∧
  _load_achievements_cache (achievements_file st) = initial_achievements st.

(** Two monitors that agree on everything but their files and the count
    of their writes. *)
Definition same_memory (st st' : monitor) : Prop :=
  achievement_blacklist st = achievement_blacklist st' ∧
  initial_achievements st = initial_achievements st' ∧
  details_cache st = details_cache st' ∧
  requests st = requests st'.

(** A disk on which every third write fails half-way. *)
Definition env_abc_bad_disk : env :=
  {| api := api env_abc;
     disk := λ n, if (n mod 3 =? 0) then DumpFailed else Written |}.


(** A schema entry of the documented shape {name, displayName,
    description, icon, icongray}. *)
Record schema_item : Type := {
  si_name : string;
  si_display : string;
  si_description : string;
  si_icon : string;
  si_icongray : string }.

Definition schema_item_value (e : schema_item) : value :=
  VDict [("name", VStr (si_name e)); ("displayName", VStr (si_display e));
         ("description", VStr (si_description e)); ("icon", VStr (si_icon e));
         ("icongray", VStr (si_icongray e))].

(** An entry {name, percent} of the percentages payload. *)
Definition percent_item_value (p : string * value) : value :=
  VDict [("name", VStr p.1); ("percent", p.2)].

Definition percents_payload (items : list value) : value :=
  VDict [("achievementpercentages", VDict [("achievements", VList items)])].

(** What [to_icon_url] gives for a str, on which it does not raise. *)
Definition icon_value (appid : appid_t) (i : string) : value :=
  match to_icon_url appid (VStr i) with
  | Ok v => v
  | Raise _ => VNone
  end.

(** The [percents] dict after the loop of line 201 over well-formed
    entries: a later entry of a name replaces an earlier one. *)
Definition percents_map (ps : list (string * value)) : gmap pykey value :=
  foldl (λ m p, <[ KStr p.1 := p.2 ]> m) ∅ ps.

(** The entry of the local [achievements] dict for a well-formed schema
    entry. *)
Definition schema_record_of (appid : appid_t) (e : schema_item) : schema_entry :=
  {| se_name := VStr (si_display e);
     se_description := VStr (si_description e);
     se_icon := icon_value appid (si_icon e);
     se_icon_gray := icon_value appid (si_icongray e) |}.

(** * Properties *)

Ltac unfold_M := unfold mbind, M_bind, mret, M_ret, gets, modify in *.

(** ** Sanity checks of the embedding *)

Example str_key_int : str_key "g1" "765" (AppInt 730) = "('g1', '765', 730)".
Proof. vm_compute. reflexivity. Qed.

Example str_key_str : str_key "g1" "765" (AppStr "730") = "('g1', '765', '730')".
Proof. vm_compute. reflexivity. Qed.

Example fetch_abc :
  (get_player_achievements env_abc "key" "g" "s" (AppInt 730) fresh).1
  = Some {[KStr "a"; KStr "b"; KStr "c"]}.
Proof. vm_compute. reflexivity. Qed.

(** ** The request log *)

Lemma log_requests_nil st : log_requests [] st = st.
Proof. destruct st; unfold log_requests; simpl. by rewrite app_nil_r. Qed.

Lemma log_requests_app rs rs' st :
  log_requests rs' (log_requests rs st) = log_requests (rs ++ rs') st.
Proof. unfold log_requests; simpl. by rewrite app_assoc. Qed.

Lemma http_get_eq E r st :
  http_get E r st = (api E (length (requests st)) r, log_requests [r] st).
Proof. reflexivity. Qed.

(** ** The fetch loops *)

Lemma poll_attempts E n req rest st :
  poll E (replicate n req ++ rest) st
  = match attempts E n req st with
    | (Return r, st') => (Return r, st')
    | (Continue, st') => poll E rest st'
    end.
Proof.
  revert st. induction n as [|n IH]; intros st; simpl; [done|].
  unfold_M. rewrite http_get_eq.
  destruct (attempt_outcome _); [reflexivity|reflexivity|apply IH].
Qed.

Lemma languages_poll E lang_list api_key steamid appid st :
  languages E lang_list api_key steamid appid st
  = poll E (flat_map (λ lang, replicate 3
              (GetPlayerAchievements api_key steamid appid lang)) lang_list) st.
Proof.
  revert st. induction lang_list as [|lang rest IH]; intros st; [done|].
  cbn [flat_map languages]. rewrite poll_attempts. unfold_M.
  destruct (attempts E 3 _ st) as [[r|] st']; [reflexivity|apply IH].
Qed.

(** Where a run of the loop can end: after some of the requests, with
    nothing but the log changed. *)
Lemma poll_log E reqs st :
  ∃ n, (poll E reqs st).2 = log_requests (take n reqs) st.
Proof.
  revert st. induction reqs as [|req rest IH]; intros st.
  - exists 0. simpl. by rewrite log_requests_nil.
  - simpl. unfold_M. rewrite http_get_eq.
    destruct (attempt_outcome _).
    + by exists 1.
    + by exists 1.
    + destruct (IH (log_requests [req] st)) as [n Hn].
      exists (S n). rewrite Hn. by rewrite log_requests_app.
Qed.

(** Every attempt fails: the loop sends every request and falls through. *)
Lemma poll_all_failed E reqs st :
  (∀ i req, reqs !! i = Some req →
     attempt_outcome (api E (length (requests st) + i) req) = Failed) →
  poll E reqs st = (Continue, log_requests reqs st).
Proof.
  revert st. induction reqs as [|req rest IH]; intros st Hall.
  - simpl. by rewrite log_requests_nil.
  - simpl. unfold_M. rewrite http_get_eq.
    pose proof (Hall 0 req eq_refl) as H0. rewrite Nat.add_0_r in H0. rewrite H0.
    rewrite IH; [by rewrite log_requests_app|].
    intros i r Hi. simpl. rewrite length_app. simpl.
    replace (length (requests st) + 1 + i) with (length (requests st) + S i) by lia.
    by apply Hall.
Qed.

(** The first attempt that does not fail is a denial: the loop returns
    [None] right after that request. *)
Lemma poll_denied E reqs st i req :
  reqs !! i = Some req →
  attempt_outcome (api E (length (requests st) + i) req) = Denied →
  (∀ j r, j < i → reqs !! j = Some r →
     attempt_outcome (api E (length (requests st) + j) r) = Failed) →
  poll E reqs st = (Return None, log_requests (take (S i) reqs) st).
Proof.
  revert st i. induction reqs as [|r0 rest IH]; intros st i Hi Hden Hbefore; [done|].
  simpl. unfold_M. rewrite http_get_eq. destruct i as [|i].
  - simpl in Hi. injection Hi as ->. rewrite Nat.add_0_r in Hden. rewrite Hden.
    by rewrite take_0.
  - pose proof (Hbefore 0 r0 ltac:(lia) eq_refl) as H0.
    rewrite Nat.add_0_r in H0. rewrite H0.
    rewrite (IH _ i); [by rewrite log_requests_app| done | |].
    + simpl. rewrite length_app. simpl.
      by replace (length (requests st) + 1 + i) with (length (requests st) + S i) by lia.
    + intros j r Hj Hr. simpl. rewrite length_app. simpl.
      replace (length (requests st) + 1 + j) with (length (requests st) + S j) by lia.
      apply Hbefore; [lia|done].
Qed.

(** ** [get_player_achievements] *)

Lemma fetch_blacklisted E api_key group_id steamid appid st :
  str_appid appid ∈ achievement_blacklist st →
  get_player_achievements E api_key group_id steamid appid st = (None, st).
Proof.
  intros Hin. unfold get_player_achievements. unfold_M.
  by rewrite bool_decide_eq_true_2.
Qed.

Lemma fetch_unfold E api_key group_id steamid appid st :
  str_appid appid ∉ achievement_blacklist st →
  get_player_achievements E api_key group_id steamid appid st
  = match poll E (fetch_requests api_key steamid appid) st with
    | (Return r, st') => (r, st')
    | (Continue, st') =>
        (None, (_save_blacklist E
                  (set_blacklist ({[ str_appid appid ]} ∪ achievement_blacklist st') st')).2)
    end.
Proof.
  intros Hnot. unfold get_player_achievements. unfold_M.
  rewrite bool_decide_eq_false_2 by done.
  rewrite languages_poll. fold (fetch_requests api_key steamid appid).
  by destruct (poll E _ st) as [[r|] st'].
Qed.

(** A fetch never touches the unlock-state table, its file or the details
    cache, and never takes anything out of the blacklist. *)
Lemma fetch_frame E api_key group_id steamid appid st :
  let st' := (get_player_achievements E api_key group_id steamid appid st).2 in
  initial_achievements st' = initial_achievements st ∧
  achievements_file st' = achievements_file st ∧
  details_cache st' = details_cache st ∧
  achievement_blacklist st ⊆ achievement_blacklist st'.
Proof.
  destruct (decide (str_appid appid ∈ achievement_blacklist st)) as [Hin|Hnot].
  - by rewrite fetch_blacklisted.
  - rewrite fetch_unfold by done.
    destruct (poll_log E (fetch_requests api_key steamid appid) st) as [n Hn].
    destruct (poll E _ st) as [[r|] st']; simpl in *; subst st'; simpl.
    + done.
    + repeat split; set_solver.
Qed.

(** ** [get_achievement_details] *)

Lemma degraded_loop_log E lang_list api_key steamid appid details st :
  ∃ rs, (degraded_loop E lang_list api_key steamid appid details st).2
        = log_requests rs st.
Proof.
  revert details st. induction lang_list as [|lang2 rest IH]; intros details st.
  - exists []. simpl. by rewrite log_requests_nil.
  - simpl. unfold_M. rewrite http_get_eq.
    destruct (api E _ _) as [status_code body|e]; [|by eexists].
    destruct (status_code =? 200)%Z.
    + destruct (degraded_read body details) as [details' [|]]; [by eexists|].
      destruct (IH details' (log_requests [GetPlayerAchievements api_key steamid appid lang2] st))
        as [rs Hrs].
      rewrite Hrs, log_requests_app. by eexists.
    + destruct (IH details (log_requests [GetPlayerAchievements api_key steamid appid lang2] st))
        as [rs Hrs].
      rewrite Hrs, log_requests_app. by eexists.
Qed.

Lemma try_language_log E lang_list appid api_key steamid try_lang details st :
  ∃ rs, (try_language E lang_list appid api_key steamid try_lang details st).2
        = log_requests rs st.
Proof.
  unfold try_language. unfold_M. rewrite http_get_eq.
  destruct (api E _ _) as [status_code body|e]; [|by eexists].
  destruct (status_code =? 400)%Z.
  { destruct (negb _ || negb _); [by eexists|].
    destruct (degraded_loop_log E lang_list api_key steamid appid details
                (log_requests [GetSchemaForGame appid api_key try_lang] st)) as [rs Hrs].
    destruct (degraded_loop E _ _ _ _ _ _) as [[details' [|]] st']; simpl in *;
      subst st'; rewrite log_requests_app; by eexists. }
  destruct (negb _); [by eexists|].
  destruct body as [schema|]; [|by eexists].
  destruct (read_schema appid schema) as [achievements|]; [|by eexists].
  rewrite http_get_eq.
  destruct (api E _ _) as [status_code2 body2|e2]; simpl;
    [|rewrite log_requests_app; by eexists].
  destruct (percents_of status_code2 body2); [|rewrite log_requests_app; by eexists].
  destruct (any_schema_description achievements); simpl;
    rewrite log_requests_app; by eexists.
Qed.

Lemma details_loop_log E todo lang_list appid api_key steamid details st :
  ∃ rs, (details_loop E todo lang_list appid api_key steamid details st).2
        = log_requests rs st.
Proof.
  revert details st. induction todo as [|try_lang rest IH]; intros details st.
  - exists []. simpl. by rewrite log_requests_nil.
  - simpl. unfold_M.
    destruct (try_language_log E lang_list appid api_key steamid try_lang details st)
      as [rs Hrs].
    destruct (try_language E _ _ _ _ _ _ st) as [[r|d|d] st']; simpl in *; subst st'.
    + by eexists.
    + by eexists.
    + destruct (IH d (log_requests rs st)) as [rs' Hrs'].
      rewrite Hrs', log_requests_app. by eexists.
Qed.

Lemma details_blacklisted E group_id appid lang api_key steamid st :
  str_appid appid ∈ achievement_blacklist st →
  get_achievement_details E group_id appid lang api_key steamid st = (∅, st).
Proof.
  intros Hin. unfold get_achievement_details. unfold_M.
  by rewrite bool_decide_eq_true_2.
Qed.

(** Resolving details touches neither the blacklist nor the unlock-state
    table nor the two files. *)
Lemma details_frame E group_id appid lang api_key steamid st :
  let st' := (get_achievement_details E group_id appid lang api_key steamid st).2 in
  achievement_blacklist st' = achievement_blacklist st ∧
  initial_achievements st' = initial_achievements st ∧
  achievements_file st' = achievements_file st ∧
  blacklist_file st' = blacklist_file st.
Proof.
  unfold get_achievement_details. unfold_M.
  destruct (bool_decide _); [done|].
  destruct (details_cache st !! _); [done|].
  destruct (details_loop_log E [lang; "schinese"; "english"; "en"]
              [lang; "schinese"; "english"; "en"] appid api_key steamid ∅ st) as [rs Hrs].
  destruct (details_loop E _ _ _ _ _ _ st) as [[r|d] st']; simpl in *; by subst st'.
Qed.

(** ** [check_new_achievements] and [clear_game_achievements] *)

Lemma check_fetched E api_key group_id steamid appid player_name game_name st fetched :
  (get_player_achievements E api_key group_id steamid appid st).1 = Some fetched →
  let st1 := (get_player_achievements E api_key group_id steamid appid st).2 in
  check_new_achievements E api_key group_id steamid appid player_name game_name st
  = (fetched ∖ baseline st group_id steamid appid,
     (_save_achievements_cache E
        (set_initial (<[ str_key group_id steamid appid := elements fetched ]>
                        (initial_achievements st)) st1)).2).
Proof.
  intros Hfetch st1.
  pose proof (fetch_frame E api_key group_id steamid appid st) as (Htable & _).
  fold st1 in Htable. subst st1.
  unfold check_new_achievements. unfold_M.
  destruct (get_player_achievements E _ _ _ _ st) as [r st1]; simpl in *.
  subst r. unfold baseline. by rewrite Htable.
Qed.

Lemma check_not_fetched E api_key group_id steamid appid player_name game_name st :
  (get_player_achievements E api_key group_id steamid appid st).1 = None →
  check_new_achievements E api_key group_id steamid appid player_name game_name st
  = (∅, (get_player_achievements E api_key group_id steamid appid st).2).
Proof.
  intros Hfetch. unfold check_new_achievements. unfold_M.
  destruct (get_player_achievements E _ _ _ _ st) as [r st1]; simpl in *.
  by subst r.
Qed.

Lemma baseline_after_check E api_key group_id steamid appid player_name game_name st fetched :
  (get_player_achievements E api_key group_id steamid appid st).1 = Some fetched →
  baseline (check_new_achievements E api_key group_id steamid appid
              player_name game_name st).2 group_id steamid appid = fetched.
Proof.
  intros Hfetch. rewrite (check_fetched _ _ _ _ _ _ _ _ fetched) by done.
  unfold baseline. simpl. rewrite lookup_insert_eq. simpl.
  apply list_to_set_elements_L.
Qed.

Lemma clear_absent E group_id steamid appid st :
  initial_achievements st !! str_key group_id steamid appid = None →
  clear_game_achievements E group_id steamid appid st = (tt, st).
Proof.
  intros Hnone. unfold clear_game_achievements. unfold_M.
  rewrite Hnone. by rewrite bool_decide_eq_false_2 by (by intros [? ?]).
Qed.

Lemma clear_present E group_id steamid appid st :
  is_Some (initial_achievements st !! str_key group_id steamid appid) →
  clear_game_achievements E group_id steamid appid st
  = _save_achievements_cache E
      (set_initial (delete (str_key group_id steamid appid) (initial_achievements st)) st).
Proof.
  intros Hsome. unfold clear_game_achievements. unfold_M.
  by rewrite bool_decide_eq_true_2.
Qed.

(** No call ever takes an entry out of the blacklist. *)
Lemma run_call_blacklist E c st :
  achievement_blacklist st ⊆ achievement_blacklist (run_call E c st).
Proof.
  destruct c as [k g s a|g a l k s|k g s a p n|g s a]; simpl.
  - apply fetch_frame.
  - by destruct (details_frame E g a l k s st) as (-> & _).
  - pose proof (fetch_frame E k g s a st) as (_ & _ & _ & Hsub).
    destruct (get_player_achievements E k g s a st).1 as [fetched|] eqn:Hfetch.
    + by rewrite (check_fetched _ _ _ _ _ _ _ _ fetched).
    + by rewrite check_not_fetched.
  - destruct (initial_achievements st !! str_key g s a) eqn:Hk.
    + by rewrite clear_present.
    + by rewrite clear_absent.
Qed.

Lemma run_calls_blacklist E cs st :
  achievement_blacklist st ⊆ achievement_blacklist (run_calls E cs st).
Proof.
  revert st. induction cs as [|c cs IH]; intros st; [done|].
  simpl. etrans; [apply (run_call_blacklist E c)|apply IH].
Qed.

(** ** The claims about reconciliation *)

(** C2. For every identity and every fetched set, [check_new_achievements]
    returns the fetched set minus the set stored before (the whole fetched
    set when nothing is stored), and stores the fetched set as the new
    baseline of that identity, also in the table written to the file; with
    {x, y} stored and {x, y, z} fetched it returns {z} and {x, y, z} is
    stored. *)
Theorem check_returns_difference_and_commits
    E api_key group_id steamid appid player_name game_name st fetched :
  (get_player_achievements E api_key group_id steamid appid st).1 = Some fetched →
  let st1 := (get_player_achievements E api_key group_id steamid appid st).2 in
  let new := (check_new_achievements E api_key group_id steamid appid
                player_name game_name st).1 in
  let st' := (check_new_achievements E api_key group_id steamid appid
                player_name game_name st).2 in
  new = fetched ∖ baseline st group_id steamid appid ∧
  (initial_achievements st !! str_key group_id steamid appid = None → new = fetched) ∧
  initial_achievements st'
    = <[ str_key group_id steamid appid := elements fetched ]> (initial_achievements st) ∧
  baseline st' group_id steamid appid = fetched ∧
  achievements_file st'
    = write_file (achievements_file st) (initial_achievements st') (disk E (writes st1)) ∧
  (∀ x y z : pykey, z ≠ x → z ≠ y →
     baseline st group_id steamid appid = {[x; y]} → fetched = {[x; y; z]} →
     new = {[z]} ∧ baseline st' group_id steamid appid = {[x; y; z]}).
Proof.
  intros Hfetch st1 new st'.
  pose proof (fetch_frame E api_key group_id steamid appid st) as (_ & Hfile & _).
  pose proof (baseline_after_check E api_key group_id steamid appid
                player_name game_name st fetched Hfetch) as Hbase.
  simpl in Hfile. subst new st' st1.
  rewrite (check_fetched _ _ _ _ _ _ _ _ fetched) in * by done.
  cbn [fst snd] in *.
  split; [done|]. split.
  { intros Hnone. unfold baseline. rewrite Hnone. simpl. apply difference_empty_L. }
  split; [done|]. split; [done|]. split.
  { simpl. by rewrite Hfile. }
  intros x y z Hzx Hzy Hold ->. rewrite Hold. split; [|done].
  clear -Hzx Hzy. apply set_eq. intros k.
  rewrite elem_of_difference, !elem_of_union, !elem_of_singleton.
  split; [intros [[[->| ->]| ->] Hk]; [exfalso; apply Hk; by left|exfalso; apply Hk; by right|done]|].
  intros ->. split; [by right|]. by intros [| ].
Qed.

Lemma check_returns_difference_and_commits_witness :
  (get_player_achievements (env_ab_then [ach "a" 1 "first"; ach "b" 1 "second"; ach "c" 1 "third"])
     "key" "g" "s" (AppInt 730)
     (after_first_check (env_ab_then [ach "a" 1 "first"; ach "b" 1 "second"; ach "c" 1 "third"]))).1
  = Some {[KStr "a"; KStr "b"; KStr "c"]} ∧
  (check_new_achievements (env_ab_then [ach "a" 1 "first"; ach "b" 1 "second"; ach "c" 1 "third"])
     "key" "g" "s" (AppInt 730) "player" "game"
     (after_first_check (env_ab_then [ach "a" 1 "first"; ach "b" 1 "second"; ach "c" 1 "third"]))).1
  = {[KStr "c"]}.
Proof.
  split; [vm_compute; reflexivity|].
  refine (proj1 (proj2 (proj2 (proj2 (proj2 (proj2
    (check_returns_difference_and_commits
       (env_ab_then [ach "a" 1 "first"; ach "b" 1 "second"; ach "c" 1 "third"])
       "key" "g" "s" (AppInt 730) "player" "game"
       (after_first_check (env_ab_then [ach "a" 1 "first"; ach "b" 1 "second"; ach "c" 1 "third"]))
       {[KStr "a"; KStr "b"; KStr "c"]} _)))))
    (KStr "a") (KStr "b") (KStr "c") _ _ _ _)).
  - vm_compute; reflexivity.
  - discriminate.
  - discriminate.
  - vm_compute; reflexivity.
  - vm_compute; reflexivity.
Defined.

(** C9. If [check_new_achievements] runs twice in a row for an identity
    and the fetch yields the same set both times, the second call returns
    the empty set. *)
Theorem second_check_returns_nothing
    E api_key group_id steamid appid player_name game_name st fetched :
  (get_player_achievements E api_key group_id steamid appid st).1 = Some fetched →
  let st' := (check_new_achievements E api_key group_id steamid appid
                player_name game_name st).2 in
  (get_player_achievements E api_key group_id steamid appid st').1 = Some fetched →
  (check_new_achievements E api_key group_id steamid appid
     player_name game_name st').1 = ∅.
Proof.
  intros Hfirst st' Hsecond.
  rewrite (check_fetched _ _ _ _ _ _ _ _ fetched) by done. cbn [fst].
  subst st'. rewrite (baseline_after_check _ _ _ _ _ _ _ _ fetched) by done.
  apply difference_diag_L.
Qed.

Lemma second_check_returns_nothing_witness :
  (get_player_achievements env_abc "key" "g" "s" (AppInt 730) fresh).1
  = Some {[KStr "a"; KStr "b"; KStr "c"]} ∧
  (get_player_achievements env_abc "key" "g" "s" (AppInt 730)
     (check_new_achievements env_abc "key" "g" "s" (AppInt 730) "player" "game" fresh).2).1
  = Some {[KStr "a"; KStr "b"; KStr "c"]} ∧
  (check_new_achievements env_abc "key" "g" "s" (AppInt 730) "player" "game"
     (check_new_achievements env_abc "key" "g" "s" (AppInt 730) "player" "game" fresh).2).1
  = ∅.
Proof.
  split; [vm_compute; reflexivity|]. split; [vm_compute; reflexivity|].
  apply (second_check_returns_nothing env_abc "key" "g" "s" (AppInt 730)
           "player" "game" fresh {[KStr "a"; KStr "b"; KStr "c"]});
    vm_compute; reflexivity.
Defined.

(** C7. If the fetch of [check_new_achievements] returns [None], the call
    returns the empty set and the unlock-state table and its file are what
    they were, for this identity and for every other. *)
Theorem failed_fetch_leaves_baselines
    E api_key group_id steamid appid player_name game_name st :
  (get_player_achievements E api_key group_id steamid appid st).1 = None →
  let st' := (check_new_achievements E api_key group_id steamid appid
                player_name game_name st).2 in
  (check_new_achievements E api_key group_id steamid appid
     player_name game_name st).1 = ∅ ∧
  initial_achievements st' = initial_achievements st ∧
  achievements_file st' = achievements_file st ∧
  (∀ g s a, baseline st' g s a = baseline st g s a).
Proof.
  intros Hfetch st'. subst st'. rewrite check_not_fetched by done. cbn [fst snd].
  pose proof (fetch_frame E api_key group_id steamid appid st) as (Htable & Hfile & _).
  simpl in Htable, Hfile. split; [done|]. split; [done|]. split; [done|].
  intros g s a. unfold baseline. by rewrite Htable.
Qed.

Lemma failed_fetch_leaves_baselines_witness :
  (get_player_achievements env_down "key" "g" "s" (AppInt 730)
     (after_first_check env_abc)).1 = None ∧
  baseline (check_new_achievements env_down "key" "g" "s" (AppInt 730) "player" "game"
              (after_first_check env_abc)).2 "g" "s" (AppInt 730)
  = {[KStr "a"; KStr "b"; KStr "c"]}.
Proof.
  split; [vm_compute; reflexivity|].
  rewrite (proj2 (proj2 (proj2
    (failed_fetch_leaves_baselines env_down "key" "g" "s" (AppInt 730) "player" "game"
       (after_first_check env_abc) eq_refl)))).
  vm_compute; reflexivity.
Defined.




(** ** The claims about the blacklist and the fetch loop *)

(** C3. Once [str(appid)] is in the blacklist, then after any further
    calls of the monitor, [get_player_achievements] returns [None] and
    [get_achievement_details] returns the empty mapping, and neither sends
    a request nor changes anything else: this holds whatever the details
    cache contains, the blacklist test coming first. *)
Theorem blacklisted_short_circuits E cs appid st :
  str_appid appid ∈ achievement_blacklist st →
  let st' := run_calls E cs st in
  (∀ api_key group_id steamid,
     get_player_achievements E api_key group_id steamid appid st' = (None, st')) ∧
  (∀ group_id lang api_key steamid,
     get_achievement_details E group_id appid lang api_key steamid st' = (∅, st')).
Proof.
  intros Hin st'.
  assert (Hin' : str_appid appid ∈ achievement_blacklist st').
  { by apply (run_calls_blacklist E cs st). }
  split; intros.
  - by apply fetch_blacklisted.
  - by apply details_blacklisted.
Qed.

Lemma blacklisted_short_circuits_witness :
  str_appid (AppInt 730) ∈ achievement_blacklist blacklisted_with_cache ∧
  is_Some (details_cache blacklisted_with_cache !! ("g", AppInt 730)) ∧
  get_player_achievements env_abc "key" "g" "s" (AppInt 730) blacklisted_with_cache
  = (None, blacklisted_with_cache) ∧
  get_achievement_details env_abc "g" (AppInt 730) "schinese" "key" "s"
    blacklisted_with_cache
  = (∅, blacklisted_with_cache).
Proof.
  assert (Hin : str_appid (AppInt 730) ∈ achievement_blacklist blacklisted_with_cache).
  { vm_compute. reflexivity. }
  split; [exact Hin|]. split; [by eexists|].
  destruct (blacklisted_short_circuits env_abc [] (AppInt 730) blacklisted_with_cache Hin)
    as [Hfetch Hdetails].
  split; [apply Hfetch|apply Hdetails].
Defined.

Example fetch_requests_order api_key steamid appid :
  fetch_requests api_key steamid appid
  = [ GetPlayerAchievements api_key steamid appid "schinese";
      GetPlayerAchievements api_key steamid appid "schinese";
      GetPlayerAchievements api_key steamid appid "schinese";
      GetPlayerAchievements api_key steamid appid "english";
      GetPlayerAchievements api_key steamid appid "english";
      GetPlayerAchievements api_key steamid appid "english";
      GetPlayerAchievements api_key steamid appid "en";
      GetPlayerAchievements api_key steamid appid "en";
      GetPlayerAchievements api_key steamid appid "en" ].
Proof. reflexivity. Qed.

(** An attempt is accepted exactly on a 200 reply whose body decodes to a
    payload with an achievement list in which some entry has a truthy
    description; the set returned is that of the entries with
    [achieved == 1]. *)
Lemma attempt_accepted r unlocked :
  attempt_outcome r = Accepted unlocked ↔
  ∃ data achievements items,
    r = Response 200 (Some data) ∧
    has_player_achievements data = Ok true ∧
    player_achievements data = Ok achievements ∧
    py_iter achievements = Ok items ∧
    unlocked_names items = Ok unlocked ∧
    any_description items = Ok true.
Proof.
  split.
  - destruct r as [status_code [data|]|e]; simpl; try done.
    + destruct (status_code =? 200)%Z eqn:Hcode;
        [|by destruct (status_code =? 401)%Z].
      apply Z.eqb_eq in Hcode as ->.
      unfold read_unlocked.
      destruct (has_player_achievements data) as [[|]|] eqn:Hhas; simpl; try done.
      destruct (player_achievements data) as [achievements|] eqn:Hach; simpl; try done.
      destruct (py_iter achievements) as [items|] eqn:Hitems; simpl; try done.
      destruct (unlocked_names items) as [u|] eqn:Hu; simpl; try done.
      destruct (any_description items) as [[|]|] eqn:Hdesc; simpl; try done.
      intros [= ->]. by exists data, achievements, items.
    + destruct (status_code =? 200)%Z; [done|by destruct (status_code =? 401)%Z].
  - intros (data & achievements & items & -> & Hhas & Hach & Hitems & Hu & Hdesc).
    simpl. unfold read_unlocked. rewrite Hhas. simpl. rewrite Hach. simpl.
    rewrite Hitems. simpl. rewrite Hu. simpl. by rewrite Hdesc.
Qed.

(** A denial is a reply with status 401, whatever its body. *)
Lemma attempt_denied r :
  attempt_outcome r = Denied ↔ ∃ body, r = Response 401 body.
Proof.
  split.
  - destruct r as [status_code body|e]; simpl; [|done].
    destruct (status_code =? 200)%Z eqn:H200.
    + destruct body as [data|]; [|done]. by destruct (read_unlocked data) as [[?|]|].
    + destruct (status_code =? 401)%Z eqn:H401; [|done].
      apply Z.eqb_eq in H401 as ->. by exists body.
  - by intros [body ->].
Qed.

(** C5. The appid is not blacklisted and each of the nine attempts, three
    per language, ends without an accepted reply and without a denial: then
    [get_player_achievements] returns [None], has sent the nine requests,
    has put [str(appid)] into the blacklist and has written the new
    blacklist to its file (a monitor restarted on that file has the appid
    blacklisted, if the write went through), and the next fetch of that
    appid returns [None] without a request. *)
Theorem exhausted_fetch_blacklists E api_key group_id steamid appid st :
  str_appid appid ∉ achievement_blacklist st →
  (∀ i req, fetch_requests api_key steamid appid !! i = Some req →
     attempt_outcome (api E (length (requests st) + i) req) = Failed) →
  let st' := (get_player_achievements E api_key group_id steamid appid st).2 in
  (get_player_achievements E api_key group_id steamid appid st).1 = None ∧
  achievement_blacklist st' = {[ str_appid appid ]} ∪ achievement_blacklist st ∧
  requests st' = requests st ++ fetch_requests api_key steamid appid ∧
  blacklist_file st'
    = write_file (blacklist_file st)
        (elements ({[ str_appid appid ]} ∪ achievement_blacklist st))
        (disk E (writes st)) ∧
  (disk E (writes st) = Written →
     _load_blacklist (blacklist_file st')
     = {[ str_appid appid ]} ∪ achievement_blacklist st) ∧
  (∀ k g s, get_player_achievements E k g s appid st' = (None, st')).
Proof.
  intros Hnot Hall st'. subst st'.
  rewrite fetch_unfold by done. rewrite poll_all_failed by done. simpl.
  split; [done|]. split; [done|]. split; [done|]. split; [done|]. split.
  - intros ->. simpl. apply list_to_set_elements_L.
  - intros k g s. apply fetch_blacklisted. simpl. set_solver.
Qed.

Lemma exhausted_fetch_blacklists_witness :
  (str_appid (AppInt 730) ∉ achievement_blacklist fresh) ∧
  (get_player_achievements env_down "key" "g" "s" (AppInt 730) fresh).1 = None ∧
  achievement_blacklist (get_player_achievements env_down "key" "g" "s" (AppInt 730) fresh).2
  = {[ "730" ]} ∪ ∅.
Proof.
  assert (Hnot : str_appid (AppInt 730) ∉ achievement_blacklist fresh).
  { vm_compute. discriminate. }
  split; [exact Hnot|].
  destruct (exhausted_fetch_blacklists env_down "key" "g" "s" (AppInt 730) fresh Hnot)
    as (Hnone & Hbl & _).
  - intros i req _. reflexivity.
  - split; [exact Hnone|exact Hbl].
Defined.

(** C6. The first attempt that does not simply fail gets a 401 reply: then
    [get_player_achievements] returns [None] with that request as its last
    one, and nothing but the request log has changed; the blacklist and its
    file are as before. *)
Theorem denied_fetch_returns_at_once E api_key group_id steamid appid st i req body :
  str_appid appid ∉ achievement_blacklist st →
  fetch_requests api_key steamid appid !! i = Some req →
  api E (length (requests st) + i) req = Response 401 body →
  (∀ j r, j < i → fetch_requests api_key steamid appid !! j = Some r →
     attempt_outcome (api E (length (requests st) + j) r) = Failed) →
  let st' := (get_player_achievements E api_key group_id steamid appid st).2 in
  (get_player_achievements E api_key group_id steamid appid st).1 = None ∧
  st' = log_requests (take (S i) (fetch_requests api_key steamid appid)) st ∧
  length (requests st') = length (requests st) + S i ∧
  achievement_blacklist st' = achievement_blacklist st ∧
  blacklist_file st' = blacklist_file st.
Proof.
  intros Hnot Hi H401 Hbefore st'. subst st'.
  rewrite fetch_unfold by done.
  rewrite (poll_denied E _ st i req) by (done || (apply attempt_denied; eauto)).
  cbn [fst snd]. split; [done|]. split; [done|]. split; [|done].
  unfold log_requests. cbn [requests]. rewrite length_app, length_take.
  apply lookup_lt_Some in Hi. lia.
Qed.

Lemma denied_fetch_returns_at_once_witness :
  (str_appid (AppInt 730) ∉ achievement_blacklist fresh) ∧
  get_player_achievements env_private "key" "g" "s" (AppInt 730) fresh
  = (None, log_requests (take 5 (fetch_requests "key" "s" (AppInt 730))) fresh).
Proof.
  assert (Hnot : str_appid (AppInt 730) ∉ achievement_blacklist fresh).
  { vm_compute. discriminate. }
  split; [exact Hnot|].
  destruct (denied_fetch_returns_at_once env_private "key" "g" "s" (AppInt 730) fresh 4
              (GetPlayerAchievements "key" "s" (AppInt 730) "english") None Hnot)
    as (Hnone & Hst & _).
  - reflexivity.
  - reflexivity.
  - intros j r Hj _. simpl.
    destruct j as [|[|[|[|j]]]]; try reflexivity. lia.
  - rewrite <- Hst, <- Hnone. by destruct (get_player_achievements _ _ _ _ _ _).
Defined.

(** ** The table key tells an int appid from a str appid *)

Lemma pretty_N_go_head (P : string → Prop) x s :
  (∀ n t, ¬ P (String (pretty_N_char n) t)) →
  ¬ P s → ¬ P (pretty_N_go x s).
Proof.
  intros Hdigit. revert s.
  induction (N.lt_wf_0 x) as [x _ IH]; intros s Hs.
  destruct (decide (x = 0)%N) as [->|Hx]; [done|].
  rewrite pretty_N_go_step by lia.
  apply IH; [apply N.div_lt; lia|apply Hdigit].
Qed.

Lemma pretty_N_head (P : string → Prop) (x : N) :
  (∀ n t, ¬ P (String (pretty_N_char n) t)) → ¬ P (pretty x).
Proof.
  intros Hdigit. unfold pretty, pretty_N.
  destruct (decide (x = 0)%N) as [->|Hx]; [apply (Hdigit 0%N)|].
  rewrite pretty_N_go_step by lia.
  apply pretty_N_go_head; [done|apply Hdigit].
Qed.

(** The decimal text of an integer is not empty and does not begin with a
    quote. *)
Lemma pretty_Z_head (z : Z) :
  ∃ c rest, pretty z = String c rest ∧ c ≠ squote ∧ c ≠ dquote.
Proof.
  set (ok := λ t : string,
         match t with
         | String c _ => negb (Ascii.eqb c squote) && negb (Ascii.eqb c dquote)
         | EmptyString => false
         end).
  assert (Hok : ∀ t, ok t = true →
            ∃ c rest, t = String c rest ∧ c ≠ squote ∧ c ≠ dquote).
  { intros [|c rest]; simpl; [done|]. intros [Hs Hd]%andb_prop.
    exists c, rest. split; [done|].
    split; intros ->; by rewrite Ascii.eqb_refl in *. }
  assert (Hdigit : ∀ n t, ¬ ok (String (pretty_N_char n) t) = false).
  { intros n t. unfold pretty_N_char. by repeat case_match. }
  destruct z as [|p|p].
  - by apply Hok.
  - apply Hok.
    pose proof (pretty_N_head (λ t, ok t = false) (N.pos p) Hdigit) as Hp.
    change (pretty (Z.pos p)) with (pretty (N.pos p)). simpl in Hp.
    destruct (ok (pretty (N.pos p))); [done|by destruct Hp].
  - by apply Hok.
Qed.

Lemma repr_str_head (s : string) :
  ∃ q rest, repr_str s = String q rest ∧ (q = squote ∨ q = dquote).
Proof.
  unfold repr_str. destruct (contains_char squote s && negb (contains_char dquote s));
    eexists _, _; eauto.
Qed.

(** [str((g, s, a))] for an int [a] is never [str((g, s, x))] for a str
    [x]. *)
Lemma str_key_int_str group_id steamid (a : Z) (x : string) :
  str_key group_id steamid (AppInt a) ≠ str_key group_id steamid (AppStr x).
Proof.
  unfold str_key. intros Heq.
  do 5 apply (inj (String.app _)) in Heq. simpl in Heq.
  destruct (pretty_Z_head a) as (c & rest & Hc & Hs & Hd).
  destruct (repr_str_head x) as (q & rest' & Hq & Hquote).
  rewrite Hc, Hq in Heq. simpl in Heq. injection Heq as -> _.
  by destruct Hquote.
Qed.

(** C10, as stated, fails when the table also holds a baseline under the
    str form of the key: after the check with the int 730 has stored its
    baseline, the clear with "730" deletes that other entry and rewrites
    the file. *)
Lemma clear_with_str_appid_can_change_table :
  (get_player_achievements env_abc "key" "g" "s" (AppInt 730) restarted_on_str_key).1
  = Some {[KStr "a"; KStr "b"; KStr "c"]} ∧
  initial_achievements checked_with_int !! str_key "g" "s" (AppInt 730)
  = Some (elements ({[KStr "a"; KStr "b"; KStr "c"]} : gset pykey)) ∧
  initial_achievements
    (clear_game_achievements env_abc "g" "s" (AppStr (pretty 730%Z)) checked_with_int).2
  ≠ initial_achievements checked_with_int ∧
  achievements_file
    (clear_game_achievements env_abc "g" "s" (AppStr (pretty 730%Z)) checked_with_int).2
  ≠ achievements_file checked_with_int.
Proof.
  split; [vm_compute; reflexivity|]. split; [vm_compute; reflexivity|]. split.
  - intros Heq.
    apply (f_equal (λ t : gmap string (list pykey), t !! str_key "g" "s" (AppStr "730")))
      in Heq.
    vm_compute in Heq. discriminate Heq.
  - intros Heq.
    apply (f_equal (λ f : file (gmap string (list pykey)),
             match f with
             | Content t => t !! str_key "g" "s" (AppStr "730")
             | _ => None
             end)) in Heq.
    vm_compute in Heq. discriminate Heq.
Qed.

(** C10, amended. After [check_new_achievements] has stored a baseline
    for an int appid [a], [clear_game_achievements] with [str(a)] looks up
    a different key: the baseline stored under the int form stays, no entry
    other than the one under the str form can change, and if the table held
    nothing under the str form the call changes nothing at all, neither the
    table nor the file. *)
Theorem clear_with_str_appid_misses_int_key
    E api_key group_id steamid (a : Z) player_name game_name st fetched :
  (get_player_achievements E api_key group_id steamid (AppInt a) st).1 = Some fetched →
  let st1 := (check_new_achievements E api_key group_id steamid (AppInt a)
                player_name game_name st).2 in
  let st2 := (clear_game_achievements E group_id steamid (AppStr (pretty a)) st1).2 in
  str_key group_id steamid (AppInt a) ≠ str_key group_id steamid (AppStr (pretty a)) ∧
  initial_achievements st2 !! str_key group_id steamid (AppInt a)
    = Some (elements fetched) ∧
  (∀ k, k ≠ str_key group_id steamid (AppStr (pretty a)) →
     initial_achievements st2 !! k = initial_achievements st1 !! k) ∧
  (initial_achievements st !! str_key group_id steamid (AppStr (pretty a)) = None →
     st2 = st1).
Proof.
  intros Hfetch st1 st2.
  pose proof (str_key_int_str group_id steamid a (pretty a)) as Hne.
  assert (Hst1 : initial_achievements st1
                 = <[ str_key group_id steamid (AppInt a) := elements fetched ]>
                     (initial_achievements st)).
  { subst st1. by rewrite (check_fetched _ _ _ _ _ _ _ _ fetched). }
  assert (Hother : ∀ k, k ≠ str_key group_id steamid (AppStr (pretty a)) →
            initial_achievements st2 !! k = initial_achievements st1 !! k).
  { intros k Hk. subst st2.
    destruct (initial_achievements st1 !! str_key group_id steamid (AppStr (pretty a)))
      eqn:Hlook.
    - rewrite clear_present by done. simpl. by rewrite lookup_delete_ne.
    - by rewrite clear_absent. }
  split; [done|]. split.
  { rewrite Hother by done. rewrite Hst1. apply lookup_insert_eq. }
  split; [done|].
  intros Hnone. subst st2. rewrite clear_absent; [done|].
  rewrite Hst1. by rewrite lookup_insert_ne.
Qed.

Lemma clear_with_str_appid_misses_int_key_witness :
  (get_player_achievements env_abc "key" "g" "s" (AppInt 730) fresh).1
  = Some {[KStr "a"; KStr "b"; KStr "c"]} ∧
  initial_achievements fresh !! str_key "g" "s" (AppStr (pretty 730%Z)) = None ∧
  (clear_game_achievements env_abc "g" "s" (AppStr (pretty 730%Z))
     (check_new_achievements env_abc "key" "g" "s" (AppInt 730) "player" "game" fresh).2).2
  = (check_new_achievements env_abc "key" "g" "s" (AppInt 730) "player" "game" fresh).2.
Proof.
  split; [vm_compute; reflexivity|]. split; [reflexivity|].
  apply (clear_with_str_appid_misses_int_key env_abc "key" "g" "s" 730 "player" "game"
           fresh {[KStr "a"; KStr "b"; KStr "c"]}).
  - vm_compute; reflexivity.
  - reflexivity.
Defined.

(** ** The claims about the details resolver *)

(** When the language loop ends, by [break] or by running out of
    languages, the mapping is stored under [(group_id, appid)] and the next
    call returns it without a request. *)
Lemma details_cached_after_loop E group_id appid lang api_key steamid st details st1 :
  str_appid appid ∉ achievement_blacklist st →
  details_cache st !! (group_id, appid) = None →
  details_loop E [lang; "schinese"; "english"; "en"] [lang; "schinese"; "english"; "en"]
    appid api_key steamid ∅ st = (inr details, st1) →
  let st' := set_details_cache (<[ (group_id, appid) := details ]> (details_cache st1)) st1 in
  get_achievement_details E group_id appid lang api_key steamid st = (details, st') ∧
  ∀ lang' api_key' steamid',
    get_achievement_details E group_id appid lang' api_key' steamid' st' = (details, st').
Proof.
  intros Hnot Hcache Hloop st'. split.
  - unfold get_achievement_details. unfold_M.
    rewrite bool_decide_eq_false_2 by done. rewrite Hcache, Hloop. done.
  - intros lang' api_key' steamid'.
    pose proof (details_loop_log E [lang; "schinese"; "english"; "en"]
                  [lang; "schinese"; "english"; "en"] appid api_key steamid ∅ st)
      as [rs Hrs].
    rewrite Hloop in Hrs. simpl in Hrs.
    unfold get_achievement_details. unfold_M.
    assert (Hbl : achievement_blacklist st' = achievement_blacklist st)
      by (subst st' st1; done).
    rewrite Hbl. rewrite bool_decide_eq_false_2 by done.
    subst st'. cbn [details_cache set_details_cache]. by rewrite lookup_insert_eq.
Qed.

(** A status other than 200 or a body that does not decode gives no
    percents, and without percents every record built from the schema is
    there with [percent] set to [None]. *)
Lemma percents_of_bad_reply status_code body :
  status_code ≠ 200%Z ∨ body = None → percents_of status_code body = Ok ∅.
Proof.
  unfold percents_of. intros [Hcode| ->].
  - by rewrite (proj2 (Z.eqb_neq _ _) Hcode).
  - by destruct (status_code =? 200)%Z.
Qed.

Lemma merge_details_lookup achievements percents details k a :
  achievements !! k = Some a →
  merge_details achievements percents details !! k
  = Some {| name := se_name a; description := se_description a; icon := se_icon a;
            icon_gray := se_icon_gray a;
            percent := default VNone (percents !! k) |}.
Proof.
  intros Ha. unfold merge_details.
  apply lookup_union_Some_l. rewrite map_lookup_imap, Ha. done.
Qed.

(** C4, degraded path: [get_achievement_details] returns the mapping built
    from the player payload by the [return details] of line 165, which
    leaves the function before the cache is written; the cache stays empty
    and the same call sends the same two requests again. *)
Theorem degraded_details_not_cached :
  get_achievement_details env_no_schema "g" (AppInt 730) "schinese" "key" "s" fresh
  = ({[ KStr "a" := degraded_record "a" "first"; KStr "b" := degraded_record "b" "second" ]},
     log_requests [GetSchemaForGame (AppInt 730) "key" "schinese";
                   GetPlayerAchievements "key" "s" (AppInt 730) "schinese"] fresh) ∧
  details_cache
    (get_achievement_details env_no_schema "g" (AppInt 730) "schinese" "key" "s" fresh).2
    !! ("g", AppInt 730) = None ∧
  requests
    (get_achievement_details env_no_schema "g" (AppInt 730) "schinese" "key" "s"
       (get_achievement_details env_no_schema "g" (AppInt 730) "schinese" "key" "s" fresh).2).2
  = [GetSchemaForGame (AppInt 730) "key" "schinese";
     GetPlayerAchievements "key" "s" (AppInt 730) "schinese";
     GetSchemaForGame (AppInt 730) "key" "schinese";
     GetPlayerAchievements "key" "s" (AppInt 730) "schinese"].
Proof.
  split; [vm_compute; reflexivity|]. split; vm_compute; reflexivity.
Qed.

Example details_with_percents :
  (get_achievement_details (env_schema (Response 200 (Some percent_payload)))
     "g" (AppInt 730) "schinese" "key" "s" fresh).1
  = {[ KStr "a" := schema_record "A" "first" "ia" (VFloat 25 (-1));
       KStr "b" := schema_record "B" "second" "ib" VNone ]}.
Proof. vm_compute. reflexivity. Qed.

(** C8: a percentages request answered with status 500 costs the percents
    only, but one that raises (a timeout, a refused connection) is caught
    by the [except] of line 214 together with the schema already read; when
    it raises for each of the four languages the resolver returns the empty
    mapping, and caches it. A 200 body of the wrong shape does the same. *)
Theorem percentages_error_empties_details :
  (get_achievement_details (env_schema (Response 500 None))
     "g" (AppInt 730) "schinese" "key" "s" fresh).1
  = {[ KStr "a" := schema_record "A" "first" "ia" VNone;
       KStr "b" := schema_record "B" "second" "ib" VNone ]} ∧
  (get_achievement_details (env_schema (Failure RequestError))
     "g" (AppInt 730) "schinese" "key" "s" fresh).1 = ∅ ∧
  details_cache
    (get_achievement_details (env_schema (Failure RequestError))
       "g" (AppInt 730) "schinese" "key" "s" fresh).2 !! ("g", AppInt 730) = Some ∅ ∧
  length (requests
    (get_achievement_details (env_schema (Failure RequestError))
       "g" (AppInt 730) "schinese" "key" "s" fresh).2) = 8 ∧
  (get_achievement_details (env_schema (Response 200 (Some (VInt 5))))
     "g" (AppInt 730) "schinese" "key" "s" fresh).1 = ∅.
Proof.
  split; [vm_compute; reflexivity|]. split; [vm_compute; reflexivity|].
  split; [vm_compute; reflexivity|]. split; vm_compute; reflexivity.
Qed.

(** * Further properties of the monitor *)

(** ** Table keys do not collide *)

Lemma string_app_cons (x : ascii) (a b : string) :
  String x a +:+ b = String x (a +:+ b).
Proof. reflexivity. Qed.

Lemma string_app_nil_l (a : string) : "" +:+ a = a.
Proof. reflexivity. Qed.

Lemma string_app_assoc (a b c : string) : (a +:+ b) +:+ c = a +:+ (b +:+ c).
Proof.
  induction a as [|x a IH]; [reflexivity|].
  rewrite !string_app_cons. f_equal. exact IH.
Qed.

Lemma string_app_inj_r (a b : string) (c : ascii) :
  a +:+ String c "" = b +:+ String c "" → a = b.
Proof.
  revert b. induction a as [|x a IH]; intros [|y b];
    rewrite ?string_app_cons; intros Heq.
  - done.
  - injection Heq as _ Heq. by destruct b.
  - injection Heq as _ Heq. by destruct a.
  - injection Heq as -> Heq. by rewrite (IH b).
Qed.

Lemma unrepr_body_char quote c tail :
  quote = squote ∨ quote = dquote →
  unrepr_body quote (repr_char quote c +:+ tail)
  = match unrepr_body quote tail with
    | Some (s, r) => Some (String c s, r)
    | None => None
    end.
Proof.
  intros [-> | ->];
    destruct c as [[] [] [] [] [] [] [] []]; reflexivity.
Qed.

Lemma unrepr_body_repr quote s rest :
  quote = squote ∨ quote = dquote →
  unrepr_body quote (repr_body quote s +:+ String quote rest) = Some (s, rest).
Proof.
  intros Hq. induction s as [|c s IH]; cbn [repr_body].
  - rewrite string_app_nil_l. cbn [unrepr_body]. by rewrite Ascii.eqb_refl.
  - rewrite string_app_assoc, unrepr_body_char by done. by rewrite IH.
Qed.

(** A str literal is read back from the front of any text it begins. *)
Lemma unrepr_repr_str s rest : unrepr (repr_str s +:+ rest) = Some (s, rest).
Proof.
  unfold repr_str.
  destruct (contains_char squote s && negb (contains_char dquote s));
    rewrite string_app_cons, string_app_assoc, string_app_cons, string_app_nil_l;
    cbn [unrepr]; rewrite ?Ascii.eqb_refl, ?orb_true_r; cbn [orb];
    apply unrepr_body_repr; auto.
Qed.

Lemma str_key_eq_inv g s a g' s' a' :
  str_key g s a = str_key g' s' a' → g = g' ∧ s = s' ∧ a = a'.
Proof.
  unfold str_key. intros Heq.
  apply (inj (String.app _)) in Heq.
  pose proof (f_equal unrepr Heq) as Hg. rewrite !unrepr_repr_str in Hg.
  apply (inj Some), pair_equal_spec in Hg as [-> Heq1].
  apply (inj (String.app _)) in Heq1.
  pose proof (f_equal unrepr Heq1) as Hs. rewrite !unrepr_repr_str in Hs.
  apply (inj Some), pair_equal_spec in Hs as [-> Heq2].
  apply (inj (String.app _)) in Heq2.
  split; [done|]. split; [done|].
  destruct a as [z|x], a' as [z'|x']; simpl in Heq2.
  - apply string_app_inj_r in Heq2. by apply (inj pretty) in Heq2 as ->.
  - exfalso. apply (str_key_int_str g' s' z x'). unfold str_key. simpl.
    by rewrite Heq2.
  - exfalso. apply (str_key_int_str g' s' z' x). unfold str_key. simpl.
    by rewrite Heq2.
  - pose proof (f_equal unrepr Heq2) as Hx. rewrite !unrepr_repr_str in Hx.
    by apply (inj Some), pair_equal_spec in Hx as [-> _].
Qed.

(** X1. Two identities have the same table key exactly when they are the
    same group, the same player and the same appid of the same type: the
    text [str((group_id, steamid, appid))] determines its three items, so
    no two tracked identities share a baseline. *)
Theorem table_keys_do_not_collide g s a g' s' a' :
  str_key g s a = str_key g' s' a' ↔ (g, s, a) = (g', s', a').
Proof.
  split.
  - intros (-> & -> & ->)%str_key_eq_inv. reflexivity.
  - intros [= -> -> ->]. reflexivity.
Qed.

(** ** [_wrap_text] *)

Lemma string_app_nil_r (a : string) : a +:+ "" = a.
Proof.
  induction a as [|x a IH]; [reflexivity|].
  rewrite string_app_cons. by rewrite IH.
Qed.

Lemma join_lines_snoc lines line :
  join_lines (lines ++ [line]) = join_lines lines +:+ line.
Proof.
  induction lines as [|l lines IH]; simpl.
  - by rewrite string_app_nil_r.
  - rewrite IH. by rewrite string_app_assoc.
Qed.

Lemma string_eqb_empty (line : string) :
  String.eqb line "" = true ↔ line = "".
Proof. apply String.eqb_eq. Qed.

Lemma _wrap_text_loop_join text_width max_width text line lines :
  join_lines (_wrap_text_loop text_width max_width text line lines)
  = join_lines lines +:+ (line +:+ text).
Proof.
  revert line lines. induction text as [|char rest IH]; intros line lines; simpl.
  - rewrite string_app_nil_r.
    destruct (String.eqb line "") eqn:Hline; simpl.
    + apply string_eqb_empty in Hline as ->. by rewrite string_app_nil_r.
    + apply join_lines_snoc.
  - destruct (text_width _ <=? max_width)%Z.
    + rewrite IH. by rewrite string_app_assoc.
    + rewrite IH. destruct (String.eqb line "") eqn:Hline; simpl.
      * by apply string_eqb_empty in Hline as ->.
      * rewrite join_lines_snoc. by rewrite string_app_assoc.
Qed.

(** X2. The lines [_wrap_text] returns, put together in order, are the
    text: wrapping drops no character, adds none and reorders none,
    whatever the font measures. *)
Theorem wrap_text_keeps_the_text text_width max_width text :
  join_lines (_wrap_text text_width max_width text) = text.
Proof.
  unfold _wrap_text. destruct (String.eqb text "") eqn:Htext.
  - by apply string_eqb_empty in Htext as ->.
  - by rewrite _wrap_text_loop_join.
Qed.




(** ** What a fetch returns *)

Lemma unlocked_names_entries (entries : list (string * Z * string)) :
  unlocked_names (map entry_value entries)
  = Ok (list_to_set (map (λ e, KStr e.1.1) (filter (λ e, e.1.2 = 1%Z) entries))).
Proof.
  induction entries as [|[[n a] d] entries IH]; [reflexivity|].
  cbn [map unlocked_names]. rewrite IH.
  unfold entry_value, ach. cbn [fst snd].
  rewrite filter_cons. cbn [fst snd].
  change (py_get (VDict [("apiname", VStr n); ("achieved", VInt a); ("description", VStr d)])
            "achieved" (VInt 0)) with (Ok (VInt a)).
  cbn [mbind result_bind eq_one].
  destruct (decide (a = 1%Z)) as [->|Hne].
  - cbn. reflexivity.
  - rewrite (proj2 (Z.eqb_neq a 1) Hne). cbn. by rewrite (left_id_L ∅ (∪)).
Qed.

Lemma any_description_entries (entries : list (string * Z * string)) :
  any_description (map entry_value entries)
  = Ok (existsb (λ e, negb (String.eqb e.2 "")) entries).
Proof.
  induction entries as [|[[n a] d] entries IH]; [reflexivity|].
  cbn [map any_description existsb]. rewrite IH.
  unfold entry_value, ach. cbn [fst snd].
  change (py_get (VDict [("apiname", VStr n); ("achieved", VInt a); ("description", VStr d)])
            "description" VNone) with (Ok (VStr d)).
  cbn [mbind result_bind truthy]. by destruct (negb (String.eqb d "")).
Qed.

(** X4. For a 200 reply whose payload has the documented shape, a list of
    {apiname, achieved, description} under playerstats.achievements, the
    attempt is accepted exactly when some description is non-empty, and
    the set it yields is that of the apinames whose [achieved] is 1. *)
Theorem well_formed_payload_outcome (entries : list (string * Z * string)) :
  attempt_outcome (Response 200 (Some (player_payload (map entry_value entries))))
  = if existsb (λ e, negb (String.eqb e.2 "")) entries
    then Accepted (list_to_set (map (λ e, KStr e.1.1)
                                  (filter (λ e, e.1.2 = 1%Z) entries)))
    else Failed.
Proof.
  cbn [attempt_outcome Z.eqb Pos.eqb].
  unfold read_unlocked.
  change (has_player_achievements (player_payload (map entry_value entries)))
    with (Ok true : result bool).
  cbn [mbind result_bind].
  change (player_achievements (player_payload (map entry_value entries)))
    with (Ok (VList (map entry_value entries))).
  cbn [mbind result_bind py_iter].
  rewrite unlocked_names_entries, any_description_entries.
  cbn [mbind result_bind]. by destruct (existsb _ entries).
Qed.

Lemma poll_accepted E reqs st i req unlocked :
  reqs !! i = Some req →
  attempt_outcome (api E (length (requests st) + i) req) = Accepted unlocked →
  (∀ j r, j < i → reqs !! j = Some r →
     attempt_outcome (api E (length (requests st) + j) r) = Failed) →
  poll E reqs st = (Return (Some unlocked), log_requests (take (S i) reqs) st).
Proof.
  revert st i. induction reqs as [|r0 rest IH]; intros st i Hi Hacc Hbefore; [done|].
  simpl. unfold_M. rewrite http_get_eq. destruct i as [|i].
  - simpl in Hi. injection Hi as ->. rewrite Nat.add_0_r in Hacc. rewrite Hacc.
    by rewrite take_0.
  - pose proof (Hbefore 0 r0 ltac:(lia) eq_refl) as H0.
    rewrite Nat.add_0_r in H0. rewrite H0.
    rewrite (IH _ i); [by rewrite log_requests_app| done | |].
    + simpl. rewrite length_app. simpl.
      by replace (length (requests st) + 1 + i) with (length (requests st) + S i) by lia.
    + intros j r Hj Hr. simpl. rewrite length_app. simpl.
      replace (length (requests st) + 1 + j) with (length (requests st) + S j) by lia.
      apply Hbefore; [lia|done].
Qed.

(** X5. When the first attempt that does not simply fail is accepted,
    [get_player_achievements] returns the set of that reply, sends nothing
    after it, and changes nothing but the request log: earlier languages
    that came back without descriptions do not count, and the appid is not
    blacklisted. *)
Theorem accepted_fetch_returns_first_accepted
    E api_key group_id steamid appid st i req unlocked :
  str_appid appid ∉ achievement_blacklist st →
  fetch_requests api_key steamid appid !! i = Some req →
  attempt_outcome (api E (length (requests st) + i) req) = Accepted unlocked →
  (∀ j r, j < i → fetch_requests api_key steamid appid !! j = Some r →
     attempt_outcome (api E (length (requests st) + j) r) = Failed) →
  get_player_achievements E api_key group_id steamid appid st
  = (Some unlocked, log_requests (take (S i) (fetch_requests api_key steamid appid)) st).
Proof.
  intros Hnot Hi Hacc Hbefore.
  rewrite fetch_unfold by done.
  by rewrite (poll_accepted E _ st i req unlocked).
Qed.

Lemma accepted_fetch_returns_first_accepted_witness :
  (str_appid (AppInt 730) ∉ achievement_blacklist fresh) ∧
  get_player_achievements env_fallback "key" "g" "s" (AppInt 730) fresh
  = (Some {[KStr "a"]},
     log_requests (take 4 (fetch_requests "key" "s" (AppInt 730))) fresh).
Proof.
  assert (Hnot : str_appid (AppInt 730) ∉ achievement_blacklist fresh).
  { vm_compute. discriminate. }
  split; [exact Hnot|].
  apply (accepted_fetch_returns_first_accepted env_fallback "key" "g" "s" (AppInt 730)
           fresh 3 (GetPlayerAchievements "key" "s" (AppInt 730) "english")
           {[KStr "a"]} Hnot).
  - reflexivity.
  - vm_compute. reflexivity.
  - intros j r Hj Hr.
    destruct j as [|[|[|j]]]; [| | |lia]; injection Hr as <-; vm_compute; reflexivity.
Defined.

(** X6. The requests one [get_player_achievements] call sends are an
    initial segment of the nine requests of the two loops, in their order:
    never more than nine, never out of order, and none at all for a
    blacklisted appid. *)
Theorem fetch_sends_a_prefix_of_nine E api_key group_id steamid appid st :
  ∃ n, n ≤ 9 ∧
    requests (get_player_achievements E api_key group_id steamid appid st).2
    = requests st ++ take n (fetch_requests api_key steamid appid) ∧
    (str_appid appid ∈ achievement_blacklist st → n = 0).
Proof.
  destruct (decide (str_appid appid ∈ achievement_blacklist st)) as [Hin|Hnot].
  - exists 0. rewrite fetch_blacklisted by done. simpl.
    split; [lia|]. split; [by rewrite app_nil_r|done].
  - rewrite fetch_unfold by done.
    destruct (poll_log E (fetch_requests api_key steamid appid) st) as [n Hn].
    exists (n `min` 9). split; [lia|]. split; [|done].
    assert (Htake : take (n `min` 9) (fetch_requests api_key steamid appid)
                    = take n (fetch_requests api_key steamid appid)).
    { destruct (decide (n ≤ 9)) as [Hle|Hgt].
      - by rewrite Nat.min_l.
      - rewrite Nat.min_r by lia. rewrite (take_ge _ n); [done|].
        rewrite fetch_requests_order. simpl. lia. }
    rewrite Htake.
    destruct (poll E _ st) as [[r|] st']; simpl in *; by subst st'.
Qed.

(** ** What resolving details does to the monitor *)

Lemma degraded_loop_count E lang_list api_key steamid appid details st :
  ∃ rs, (degraded_loop E lang_list api_key steamid appid details st).2
        = log_requests rs st ∧ length rs ≤ length lang_list.
Proof.
  revert details st. induction lang_list as [|lang2 rest IH]; intros details st.
  - exists []. simpl. by rewrite log_requests_nil.
  - simpl. unfold_M. rewrite http_get_eq.
    set (req := GetPlayerAchievements api_key steamid appid lang2).
    destruct (api E _ _) as [status_code body|e]; [|exists [req]; simpl; split; [done|lia]].
    destruct (status_code =? 200)%Z.
    + destruct (degraded_read body details) as [details' [|]];
        [exists [req]; simpl; split; [done|lia]|].
      destruct (IH details' (log_requests [req] st)) as (rs & Hrs & Hlen).
      exists (req :: rs). rewrite Hrs, log_requests_app. simpl. split; [done|lia].
    + destruct (IH details (log_requests [req] st)) as (rs & Hrs & Hlen).
      exists (req :: rs). rewrite Hrs, log_requests_app. simpl. split; [done|lia].
Qed.

Lemma try_language_count E lang_list appid api_key steamid try_lang details st :
  ∃ rs, (try_language E lang_list appid api_key steamid try_lang details st).2
        = log_requests rs st ∧ length rs ≤ 1 + length lang_list `max` 1.
Proof.
  unfold try_language. unfold_M. rewrite http_get_eq.
  set (req := GetSchemaForGame appid api_key try_lang).
  destruct (api E _ _) as [status_code body|e]; [|exists [req]; simpl; split; [done|lia]].
  destruct (status_code =? 400)%Z.
  { destruct (negb _ || negb _); [exists [req]; simpl; split; [done|lia]|].
    destruct (degraded_loop_count E lang_list api_key steamid appid details
                (log_requests [req] st)) as (rs & Hrs & Hlen).
    exists (req :: rs).
    destruct (degraded_loop E _ _ _ _ _ _) as [[details' [|]] st']; simpl in *;
      subst st'; rewrite log_requests_app; simpl; (split; [done|lia]). }
  destruct (negb _); [exists [req]; simpl; split; [done|lia]|].
  destruct body as [schema|]; [|exists [req]; simpl; split; [done|lia]].
  destruct (read_schema appid schema) as [achievements|];
    [|exists [req]; simpl; split; [done|lia]].
  rewrite http_get_eq.
  exists [req; GetGlobalAchievementPercentagesForApp appid].
  destruct (api E _ _) as [status_code2 body2|e2]; simpl;
    [|rewrite log_requests_app; simpl; split; [done|lia]].
  destruct (percents_of status_code2 body2);
    [|rewrite log_requests_app; simpl; split; [done|lia]].
  destruct (any_schema_description achievements); simpl;
    rewrite log_requests_app; simpl; (split; [done|lia]).
Qed.

Lemma details_loop_count E todo lang_list appid api_key steamid details st :
  ∃ rs, (details_loop E todo lang_list appid api_key steamid details st).2
        = log_requests rs st ∧
        length rs ≤ length todo * (1 + length lang_list `max` 1).
Proof.
  revert details st. induction todo as [|try_lang rest IH]; intros details st.
  - exists []. simpl. by rewrite log_requests_nil.
  - cbn [details_loop]. unfold_M.
    destruct (try_language_count E lang_list appid api_key steamid try_lang details st)
      as (rs & Hrs & Hlen).
    destruct (try_language E _ _ _ _ _ _ st) as [[r|d|d] st']; cbn [snd] in Hrs; subst st'.
    + exists rs. split; [done|]. simpl. lia.
    + exists rs. split; [done|]. simpl. lia.
    + destruct (IH d (log_requests rs st)) as (rs' & Hrs' & Hlen').
      exists (rs ++ rs'). rewrite Hrs', log_requests_app. split; [done|].
      rewrite length_app. simpl. lia.
Qed.

(** X7. Whatever the servers answer, [get_achievement_details] changes
    only the request log and the cache entry of its own [(group_id,
    appid)]: the blacklist, the unlock-state table and both files stay as
    they were (a schema rejected with 400 does not blacklist the game), no
    other cache entry is touched, and at most twenty requests are sent. *)
Theorem details_touch_only_log_and_own_cache_entry
    E group_id appid lang api_key steamid st :
  let st' := (get_achievement_details E group_id appid lang api_key steamid st).2 in
  achievement_blacklist st' = achievement_blacklist st ∧
  initial_achievements st' = initial_achievements st ∧
  blacklist_file st' = blacklist_file st ∧
  achievements_file st' = achievements_file st ∧
  writes st' = writes st ∧
  (∀ key, key ≠ (group_id, appid) → details_cache st' !! key = details_cache st !! key) ∧
  ∃ rs, requests st' = requests st ++ rs ∧ length rs ≤ 20.
Proof.
  unfold get_achievement_details. unfold_M.
  destruct (bool_decide _).
  { simpl. do 6 (split; [done|]). exists []. split; [by rewrite app_nil_r|simpl; lia]. }
  destruct (details_cache st !! _).
  { simpl. do 6 (split; [done|]). exists []. split; [by rewrite app_nil_r|simpl; lia]. }
  destruct (details_loop_count E [lang; "schinese"; "english"; "en"]
              [lang; "schinese"; "english"; "en"] appid api_key steamid ∅ st)
    as (rs & Hrs & Hlen).
  simpl in Hlen.
  destruct (details_loop E _ _ _ _ _ _ st) as [[r|d] st']; cbn [snd] in Hrs; subst st';
    simpl; do 5 (split; [done|]).
  - split; [done|]. by exists rs.
  - split; [|by exists rs]. intros key Hkey. by rewrite lookup_insert_ne.
Qed.

(** ** Resolutions that find nothing *)

Lemma try_language_unavailable E lang_list appid api_key steamid try_lang details st :
  schema_unavailable (api E (length (requests st))
                        (GetSchemaForGame appid api_key try_lang)) = true →
  try_language E lang_list appid api_key steamid try_lang details st
  = (StepNext details, log_requests [GetSchemaForGame appid api_key try_lang] st).
Proof.
  intros Hbad. unfold try_language. unfold_M. rewrite http_get_eq.
  destruct (api E _ _) as [status_code body|e]; [|done].
  simpl in Hbad.
  destruct (status_code =? 400)%Z; [done|].
  destruct (status_code =? 200)%Z; [|done].
  by destruct body.
Qed.

Lemma details_loop_unavailable E todo lang_list appid api_key steamid details st :
  (∀ i l, todo !! i = Some l →
     schema_unavailable (api E (length (requests st) + i)
                           (GetSchemaForGame appid api_key l)) = true) →
  details_loop E todo lang_list appid api_key steamid details st
  = (inr details, log_requests (map (GetSchemaForGame appid api_key) todo) st).
Proof.
  revert st. induction todo as [|l rest IH]; intros st Hall.
  - simpl. by rewrite log_requests_nil.
  - cbn [details_loop]. unfold_M.
    pose proof (Hall 0 l eq_refl) as H0. rewrite Nat.add_0_r in H0.
    rewrite try_language_unavailable by done.
    rewrite IH; [by rewrite log_requests_app|].
    intros i l' Hi. simpl. rewrite length_app. simpl.
    replace (length (requests st) + 1 + i) with (length (requests st) + S i) by lia.
    by apply Hall.
Qed.

(** X8. When the schema request fails for each of the four languages (an
    exception, a status other than 200 and 400, or an undecodable body),
    [get_achievement_details] returns the empty mapping after exactly four
    requests and stores the empty mapping in the cache, so that every later
    call for the same group and appid returns the empty mapping without
    asking the server again. *)
Theorem failed_resolution_is_cached E group_id appid lang api_key steamid st :
  str_appid appid ∉ achievement_blacklist st →
  details_cache st !! (group_id, appid) = None →
  (∀ i l, [lang; "schinese"; "english"; "en"] !! i = Some l →
     schema_unavailable (api E (length (requests st) + i)
                           (GetSchemaForGame appid api_key l)) = true) →
  let st' := (get_achievement_details E group_id appid lang api_key steamid st).2 in
  (get_achievement_details E group_id appid lang api_key steamid st).1 = ∅ ∧
  details_cache st' = <[ (group_id, appid) := ∅ ]> (details_cache st) ∧
  requests st'
    = requests st ++ map (GetSchemaForGame appid api_key)
                       [lang; "schinese"; "english"; "en"] ∧
  (∀ lang' api_key' steamid',
     get_achievement_details E group_id appid lang' api_key' steamid' st' = (∅, st')).
Proof.
  intros Hnot Hmiss Hall st'.
  pose proof (details_loop_unavailable E [lang; "schinese"; "english"; "en"]
                [lang; "schinese"; "english"; "en"] appid api_key steamid ∅ st Hall)
    as Hloop.
  destruct (details_cached_after_loop E group_id appid lang api_key steamid st ∅ _
              Hnot Hmiss Hloop) as [Hcall Hlater].
  subst st'. rewrite Hcall. cbn [fst snd]. split; [done|]. split; [done|].
  split; [done|]. exact Hlater.
Qed.

Lemma failed_resolution_is_cached_witness :
  (str_appid (AppInt 730) ∉ achievement_blacklist fresh) ∧
  details_cache fresh !! ("g", AppInt 730) = None ∧
  (get_achievement_details env_down "g" (AppInt 730) "schinese" "key" "s" fresh).1 = ∅ ∧
  details_cache
    (get_achievement_details env_down "g" (AppInt 730) "schinese" "key" "s" fresh).2
  = <[ ("g", AppInt 730) := ∅ ]> (details_cache fresh).
Proof.
  assert (Hnot : str_appid (AppInt 730) ∉ achievement_blacklist fresh).
  { vm_compute. discriminate. }
  split; [exact Hnot|]. split; [reflexivity|].
  destruct (failed_resolution_is_cached env_down "g" (AppInt 730) "schinese" "key" "s"
              fresh Hnot eq_refl) as (Hres & Hcache & _).
  - intros i l _. reflexivity.
  - split; [exact Hres|exact Hcache].
Defined.

(** X9. When the schema endpoint answers 400 and the caller passed no
    [api_key] or no [steamid], [get_achievement_details] returns the empty
    mapping after that one request and stores nothing in the cache. *)
Theorem degraded_path_needs_credentials E group_id appid lang api_key steamid st body :
  str_appid appid ∉ achievement_blacklist st →
  details_cache st !! (group_id, appid) = None →
  api E (length (requests st)) (GetSchemaForGame appid api_key lang) = Response 400 body →
  api_key = "" ∨ steamid = "" →
  get_achievement_details E group_id appid lang api_key steamid st
  = (∅, log_requests [GetSchemaForGame appid api_key lang] st).
Proof.
  intros Hnot Hmiss H400 Hcred.
  unfold get_achievement_details. unfold_M.
  rewrite bool_decide_eq_false_2 by done. rewrite Hmiss.
  cbn [details_loop]. unfold try_language. unfold_M.
  rewrite http_get_eq, H400. cbn [Z.eqb Pos.eqb].
  by destruct Hcred as [-> | ->]; cbn; rewrite ?orb_true_r.
Qed.

Lemma degraded_path_needs_credentials_witness :
  (str_appid (AppInt 730) ∉ achievement_blacklist fresh) ∧
  get_achievement_details env_no_schema "g" (AppInt 730) "schinese" "" "s" fresh
  = (∅, log_requests [GetSchemaForGame (AppInt 730) "" "schinese"] fresh).
Proof.
  assert (Hnot : str_appid (AppInt 730) ∉ achievement_blacklist fresh).
  { vm_compute. discriminate. }
  split; [exact Hnot|].
  apply (degraded_path_needs_credentials env_no_schema "g" (AppInt 730) "schinese" "" "s"
           fresh None Hnot); [reflexivity|reflexivity|by left].
Defined.

(** ** How reconciliations compose *)

(** X10. Two successful reconciliations in a row: the second returns the
    names of its fetched set that the first fetched set lacks, whatever
    was stored before the first. A name that drops out of one fetch and
    is back in the next is therefore reported again. *)
Theorem consecutive_checks_report_difference
    E api_key group_id steamid appid player_name game_name st first second :
  (get_player_achievements E api_key group_id steamid appid st).1 = Some first →
  let st1 := (check_new_achievements E api_key group_id steamid appid
                player_name game_name st).2 in
  (get_player_achievements E api_key group_id steamid appid st1).1 = Some second →
  (check_new_achievements E api_key group_id steamid appid
     player_name game_name st1).1 = second ∖ first.
Proof.
  intros Hfirst st1 Hsecond.
  rewrite (check_fetched _ _ _ _ _ _ _ _ second) by done. cbn [fst].
  subst st1. by rewrite (baseline_after_check _ _ _ _ _ _ _ _ first).
Qed.

Lemma consecutive_checks_report_difference_witness :
  (get_player_achievements env_relock "key" "g" "s" (AppInt 730) fresh).1
  = Some {[KStr "a"; KStr "b"]} ∧
  (get_player_achievements env_relock "key" "g" "s" (AppInt 730)
     (check_new_achievements env_relock "key" "g" "s" (AppInt 730)
        "player" "game" fresh).2).1 = Some {[KStr "a"]} ∧
  (check_new_achievements env_relock "key" "g" "s" (AppInt 730) "player" "game"
     (check_new_achievements env_relock "key" "g" "s" (AppInt 730)
        "player" "game" fresh).2).1
  = {[KStr "a"]} ∖ {[KStr "a"; KStr "b"]}.
Proof.
  split; [vm_compute; reflexivity|]. split; [vm_compute; reflexivity|].
  apply (consecutive_checks_report_difference env_relock "key" "g" "s" (AppInt 730)
           "player" "game" fresh {[KStr "a"; KStr "b"]} {[KStr "a"]});
    vm_compute; reflexivity.
Defined.

(** X11. [clear_game_achievements] leaves no entry for its identity, so
    the baseline of that identity is empty and the next successful
    [check_new_achievements] for it returns everything it fetches; the
    baselines of all other identities are as before. *)
Theorem clear_resets_one_baseline E group_id steamid appid st :
  let st1 := (clear_game_achievements E group_id steamid appid st).2 in
  initial_achievements st1 !! str_key group_id steamid appid = None ∧
  baseline st1 group_id steamid appid = ∅ ∧
  (∀ g s a, (g, s, a) ≠ (group_id, steamid, appid) →
     baseline st1 g s a = baseline st g s a) ∧
  (∀ api_key player_name game_name fetched,
     (get_player_achievements E api_key group_id steamid appid st1).1 = Some fetched →
     (check_new_achievements E api_key group_id steamid appid
        player_name game_name st1).1 = fetched).
Proof.
  intros st1.
  assert (Hnone : initial_achievements st1 !! str_key group_id steamid appid = None).
  { subst st1. destruct (initial_achievements st !! str_key group_id steamid appid) eqn:Hk.
    - rewrite clear_present by done. simpl. apply lookup_delete_eq.
    - by rewrite clear_absent. }
  assert (Hempty : baseline st1 group_id steamid appid = ∅).
  { unfold baseline. by rewrite Hnone. }
  split; [done|]. split; [done|]. split.
  - intros g s a Hne. unfold baseline. subst st1.
    assert (Hkey : str_key group_id steamid appid ≠ str_key g s a).
    { intros (-> & -> & ->)%str_key_eq_inv. by apply Hne. }
    destruct (initial_achievements st !! str_key group_id steamid appid) eqn:Hk.
    + rewrite clear_present by done. simpl. by rewrite lookup_delete_ne.
    + by rewrite clear_absent.
  - intros api_key player_name game_name fetched Hfetch.
    rewrite (check_fetched _ _ _ _ _ _ _ _ fetched) by done. cbn [fst].
    rewrite Hempty. apply difference_empty_L.
Qed.

(** X12. A [check_new_achievements] call, whether its fetch succeeds or
    not, leaves the stored list and the baseline of every other identity
    as they were. *)
Theorem check_leaves_other_identities
    E api_key group_id steamid appid player_name game_name st g s a :
  (g, s, a) ≠ (group_id, steamid, appid) →
  let st' := (check_new_achievements E api_key group_id steamid appid
                player_name game_name st).2 in
  initial_achievements st' !! str_key g s a = initial_achievements st !! str_key g s a ∧
  baseline st' g s a = baseline st g s a.
Proof.
  intros Hne st'.
  assert (Hkey : str_key group_id steamid appid ≠ str_key g s a).
  { intros (-> & -> & ->)%str_key_eq_inv. by apply Hne. }
  assert (Hlook : initial_achievements st' !! str_key g s a
                  = initial_achievements st !! str_key g s a).
  { subst st'.
    destruct (get_player_achievements E api_key group_id steamid appid st).1
      as [fetched|] eqn:Hfetch.
    - rewrite (check_fetched _ _ _ _ _ _ _ _ fetched) by done. simpl.
      by rewrite lookup_insert_ne.
    - rewrite check_not_fetched by done. simpl.
      by destruct (fetch_frame E api_key group_id steamid appid st) as (-> & _). }
  split; [done|]. unfold baseline. by rewrite Hlook.
Qed.

Lemma check_leaves_other_identities_witness :
  ("g", "s", AppInt 440) ≠ ("g", "s", AppInt 730) ∧
  baseline (check_new_achievements env_abc "key" "g" "s" (AppInt 730) "player" "game"
              (after_first_check env_abc)).2 "g" "s" (AppInt 440)
  = baseline (after_first_check env_abc) "g" "s" (AppInt 440).
Proof.
  split; [discriminate|].
  apply (check_leaves_other_identities env_abc "key" "g" "s" (AppInt 730)
           "player" "game" (after_first_check env_abc) "g" "s" (AppInt 440)).
  discriminate.
Defined.

(** ** Icon addresses *)

(** X13. Whenever [to_icon_url] returns, the result is [None] or a str
    that begins with http:// or https://, and handing that result to
    [to_icon_url] again returns it unchanged. *)
Theorem to_icon_url_absolute_or_none appid val r :
  to_icon_url appid val = Ok r →
  (r = VNone ∨ ∃ u, r = VStr u ∧ is_prefix "http://" u || is_prefix "https://" u = true) ∧
  to_icon_url appid r = Ok r.
Proof.
  unfold to_icon_url at 1. destruct (truthy val) eqn:Htruthy; cbn [negb].
  - destruct val as [| | | |u| |]; try discriminate.
    destruct (is_prefix "http://" u || is_prefix "https://" u) eqn:Hprefix.
    + intros [= <-]. split; [right; by exists u|].
      unfold to_icon_url. by rewrite Htruthy, Hprefix.
    + intros [= <-]. split; [right; eexists; split; [reflexivity|reflexivity]|].
      reflexivity.
  - intros [= <-]. split; [by left|reflexivity].
Qed.

Lemma to_icon_url_absolute_or_none_witness :
  to_icon_url (AppInt 730) (VStr "abc")
  = Ok (VStr "https://cdn.akamai.steamstatic.com/steamcommunity/public/images/apps/730/abc.jpg") ∧
  to_icon_url (AppInt 730)
    (VStr "https://cdn.akamai.steamstatic.com/steamcommunity/public/images/apps/730/abc.jpg")
  = Ok (VStr "https://cdn.akamai.steamstatic.com/steamcommunity/public/images/apps/730/abc.jpg").
Proof.
  assert (H : to_icon_url (AppInt 730) (VStr "abc")
    = Ok (VStr "https://cdn.akamai.steamstatic.com/steamcommunity/public/images/apps/730/abc.jpg")).
  { vm_compute. reflexivity. }
  split; [exact H|].
  apply (to_icon_url_absolute_or_none (AppInt 730) (VStr "abc") _ H).
Defined.

(** ** The files and the memory *)

Lemma fetch_synced E api_key group_id steamid appid st :
  (∀ n, disk E n = Written) →
  synced st →
  synced (get_player_achievements E api_key group_id steamid appid st).2.
Proof.
  intros Hdisk [Hbl Htable].
  destruct (decide (str_appid appid ∈ achievement_blacklist st)) as [Hin|Hnot].
  - by rewrite fetch_blacklisted.
  - rewrite fetch_unfold by done.
    destruct (poll_log E (fetch_requests api_key steamid appid) st) as [n Hn].
    destruct (poll E _ st) as [[r|] st']; simpl in Hn; subst st'; [done|].
    split; simpl; [|done].
    rewrite Hdisk. simpl. apply list_to_set_elements_L.
Qed.

Lemma run_call_synced E c st :
  (∀ n, disk E n = Written) → synced st → synced (run_call E c st).
Proof.
  intros Hdisk Hsync.
  destruct c as [k g s a|g a l k s|k g s a p n|g s a]; simpl.
  - by apply fetch_synced.
  - destruct Hsync as [Hbl Htable].
    destruct (details_frame E g a l k s st) as (Hb & Ht & Haf & Hbf).
    split; simpl in *; congruence.
  - pose proof (fetch_synced E k g s a st Hdisk Hsync) as [Hbl Htable].
    destruct (get_player_achievements E k g s a st).1 as [fetched|] eqn:Hfetch.
    + rewrite (check_fetched _ _ _ _ _ _ _ _ fetched) by done.
      split; simpl; [done|]. by rewrite Hdisk.
    + by rewrite check_not_fetched.
  - destruct Hsync as [Hbl Htable].
    destruct (initial_achievements st !! str_key g s a) eqn:Hk.
    + rewrite clear_present by done. split; simpl; [done|]. by rewrite Hdisk.
    + by rewrite clear_absent.
Qed.

(** X14. As long as no file write fails, after any sequence of calls on a
    monitor started from any two files, the files hold exactly the
    blacklist and the unlock-state table the monitor has in memory: a
    monitor restarted on them comes up with both. *)
Theorem restart_recovers_blacklist_and_table E bf af cs :
  (∀ n, disk E n = Written) →
  let st := run_calls E cs (init bf af) in
  achievement_blacklist (init (blacklist_file st) (achievements_file st))
  = achievement_blacklist st ∧
  initial_achievements (init (blacklist_file st) (achievements_file st))
  = initial_achievements st.
Proof.
  intros Hdisk st.
  assert (Hall : ∀ cs' st0, synced st0 → synced (run_calls E cs' st0)).
  { induction cs' as [|c cs' IH]; intros st0 Hst0; [done|].
    simpl. apply IH. by apply run_call_synced. }
  apply (Hall cs (init bf af)). by split.
Qed.

Lemma restart_recovers_blacklist_and_table_witness :
  (∀ n, disk env_down n = Written) ∧
  achievement_blacklist
    (init (blacklist_file (run_calls env_down [CallFetch "key" "g" "s" (AppInt 730)]
                             (init Missing Missing)))
          (achievements_file (run_calls env_down [CallFetch "key" "g" "s" (AppInt 730)]
                                (init Missing Missing))))
  = achievement_blacklist (run_calls env_down [CallFetch "key" "g" "s" (AppInt 730)]
                             (init Missing Missing)).
Proof.
  split; [done|].
  apply (restart_recovers_blacklist_and_table env_down Missing Missing
           [CallFetch "key" "g" "s" (AppInt 730)]).
  done.
Defined.

Section DiskIndependence.
Variables E E' : env.
Hypothesis same_api : ∀ n r, api E n r = api E' n r.

Lemma poll_same_memory reqs st st' :
  same_memory st st' →
  (poll E reqs st).1 = (poll E' reqs st').1 ∧
  same_memory (poll E reqs st).2 (poll E' reqs st').2.
Proof using same_api.
  revert st st'. induction reqs as [|req rest IH]; intros st st' Hmem; [done|].
  simpl. unfold_M. rewrite !http_get_eq.
  destruct Hmem as (Hb & Ht & Hc & Hr).
  rewrite Hr, same_api.
  assert (Hlog : same_memory (log_requests [req] st) (log_requests [req] st')).
  { repeat split; simpl; congruence. }
  destruct (attempt_outcome _); [done|done|]. by apply IH.
Qed.

Lemma fetch_same_memory api_key group_id steamid appid st st' :
  same_memory st st' →
  (get_player_achievements E api_key group_id steamid appid st).1
  = (get_player_achievements E' api_key group_id steamid appid st').1 ∧
  same_memory (get_player_achievements E api_key group_id steamid appid st).2
              (get_player_achievements E' api_key group_id steamid appid st').2.
Proof using same_api.
  intros Hmem. pose proof Hmem as (Hb & Ht & Hc & Hr).
  destruct (decide (str_appid appid ∈ achievement_blacklist st)) as [Hin|Hnot].
  - rewrite !fetch_blacklisted by congruence. done.
  - rewrite !fetch_unfold by congruence.
    destruct (poll_same_memory (fetch_requests api_key steamid appid) st st' Hmem)
      as [Hres Hmem'].
    destruct (poll E _ st) as [[r|] st1], (poll E' _ st') as [[r'|] st1'];
      simpl in Hres; try discriminate.
    + injection Hres as ->. done.
    + destruct Hmem' as (Hb' & Ht' & Hc' & Hr'). simpl in *.
      split; [done|]. repeat split; simpl; congruence.
Qed.

Lemma degraded_loop_same_memory lang_list api_key steamid appid details st st' :
  same_memory st st' →
  (degraded_loop E lang_list api_key steamid appid details st).1
  = (degraded_loop E' lang_list api_key steamid appid details st').1 ∧
  same_memory (degraded_loop E lang_list api_key steamid appid details st).2
              (degraded_loop E' lang_list api_key steamid appid details st').2.
Proof using same_api.
  revert details st st'. induction lang_list as [|lang2 rest IH];
    intros details st st' Hmem; [done|].
  simpl. unfold_M. rewrite !http_get_eq.
  pose proof Hmem as (Hb & Ht & Hc & Hr).
  rewrite Hr, same_api.
  assert (Hlog : same_memory
            (log_requests [GetPlayerAchievements api_key steamid appid lang2] st)
            (log_requests [GetPlayerAchievements api_key steamid appid lang2] st')).
  { repeat split; simpl; congruence. }
  destruct (api E' _ _) as [status_code body|e]; [|done].
  destruct (status_code =? 200)%Z; [|by apply IH].
  destruct (degraded_read body details) as [details' [|]]; [done|by apply IH].
Qed.

Lemma try_language_same_memory lang_list appid api_key steamid try_lang details st st' :
  same_memory st st' →
  (try_language E lang_list appid api_key steamid try_lang details st).1
  = (try_language E' lang_list appid api_key steamid try_lang details st').1 ∧
  same_memory (try_language E lang_list appid api_key steamid try_lang details st).2
              (try_language E' lang_list appid api_key steamid try_lang details st').2.
Proof using same_api.
  intros Hmem. unfold try_language. unfold_M. rewrite !http_get_eq.
  pose proof Hmem as (Hb & Ht & Hc & Hr).
  rewrite Hr, same_api.
  assert (Hlog : same_memory
            (log_requests [GetSchemaForGame appid api_key try_lang] st)
            (log_requests [GetSchemaForGame appid api_key try_lang] st')).
  { repeat split; simpl; congruence. }
  destruct (api E' _ _) as [status_code body|e]; [|done].
  destruct (status_code =? 400)%Z.
  { destruct (negb _ || negb _); [done|].
    destruct (degraded_loop_same_memory lang_list api_key steamid appid details _ _ Hlog)
      as [Hres Hmem'].
    destruct (degraded_loop E _ _ _ _ _ _) as [[d b] st1],
             (degraded_loop E' _ _ _ _ _ _) as [[d' b'] st1'].
    simpl in Hres, Hmem'. injection Hres as -> ->. by destruct b'. }
  destruct (negb _); [done|].
  destruct body as [schema|]; [|done].
  destruct (read_schema appid schema) as [achievements|]; [|done].
  rewrite !http_get_eq. simpl. rewrite !length_app, Hr, same_api.
  assert (Hlog2 : same_memory
            (log_requests [GetGlobalAchievementPercentagesForApp appid]
               (log_requests [GetSchemaForGame appid api_key try_lang] st))
            (log_requests [GetGlobalAchievementPercentagesForApp appid]
               (log_requests [GetSchemaForGame appid api_key try_lang] st'))).
  { repeat split; simpl; congruence. }
  destruct (api E' _ _) as [status_code2 body2|e2]; [|done].
  destruct (percents_of status_code2 body2); [|done].
  by destruct (any_schema_description achievements).
Qed.

Lemma details_loop_same_memory todo lang_list appid api_key steamid details st st' :
  same_memory st st' →
  (details_loop E todo lang_list appid api_key steamid details st).1
  = (details_loop E' todo lang_list appid api_key steamid details st').1 ∧
  same_memory (details_loop E todo lang_list appid api_key steamid details st).2
              (details_loop E' todo lang_list appid api_key steamid details st').2.
Proof using same_api.
  revert details st st'. induction todo as [|try_lang rest IH];
    intros details st st' Hmem; [done|].
  cbn [details_loop]. unfold_M.
  destruct (try_language_same_memory lang_list appid api_key steamid try_lang details
              st st' Hmem) as [Hres Hmem'].
  destruct (try_language E _ _ _ _ _ _ st) as [step1 st1],
           (try_language E' _ _ _ _ _ _ st') as [step1' st1'].
  simpl in Hres, Hmem'. subst step1'.
  destruct step1 as [r|d|d]; [done|done|by apply IH].
Qed.

Lemma details_same_memory group_id appid lang api_key steamid st st' :
  same_memory st st' →
  (get_achievement_details E group_id appid lang api_key steamid st).1
  = (get_achievement_details E' group_id appid lang api_key steamid st').1 ∧
  same_memory (get_achievement_details E group_id appid lang api_key steamid st).2
              (get_achievement_details E' group_id appid lang api_key steamid st').2.
Proof using same_api.
  intros Hmem. pose proof Hmem as (Hb & Ht & Hc & Hr).
  unfold get_achievement_details. unfold_M. rewrite Hb.
  destruct (bool_decide _); [done|]. rewrite Hc.
  destruct (details_cache st' !! _); [done|].
  destruct (details_loop_same_memory [lang; "schinese"; "english"; "en"]
              [lang; "schinese"; "english"; "en"] appid api_key steamid ∅ st st' Hmem)
    as [Hres Hmem'].
  destruct (details_loop E _ _ _ _ _ _ st) as [e st1],
           (details_loop E' _ _ _ _ _ _ st') as [e' st1'].
  simpl in Hres, Hmem'. subst e'. destruct e as [r|d]; [done|].
  destruct Hmem' as (Hb' & Ht' & Hc' & Hr'). simpl.
  split; [done|]. repeat split; simpl; congruence.
Qed.

Lemma run_call_same_memory c st st' :
  same_memory st st' → same_memory (run_call E c st) (run_call E' c st').
Proof using same_api.
  intros Hmem. destruct c as [k g s a|g a l k s|k g s a p n|g s a]; simpl.
  - apply fetch_same_memory, Hmem.
  - apply details_same_memory, Hmem.
  - destruct (fetch_same_memory k g s a st st' Hmem) as [Hres Hmem'].
    pose proof (fetch_frame E k g s a st) as (Ht1 & _).
    pose proof (fetch_frame E' k g s a st') as (Ht1' & _).
    destruct (get_player_achievements E k g s a st).1 as [fetched|] eqn:Hfetch.
    + rewrite (check_fetched E _ _ _ _ _ _ _ fetched) by done.
      rewrite (check_fetched E' _ _ _ _ _ _ _ fetched) by done.
      destruct Hmem as (Hb & Ht & Hc & Hr), Hmem' as (Hb' & Ht' & Hc' & Hr').
      repeat split; simpl; congruence.
    + rewrite (check_not_fetched E) by done.
      by rewrite (check_not_fetched E') by done.
  - pose proof Hmem as (Hb & Ht & Hc & Hr).
    destruct (initial_achievements st !! str_key g s a) eqn:Hk.
    + rewrite (clear_present E) by done.
      rewrite (clear_present E') by (by rewrite <- Ht, Hk).
      repeat split; simpl; congruence.
    + rewrite (clear_absent E) by done.
      by rewrite (clear_absent E') by (by rewrite <- Ht, Hk).
Qed.

Lemma run_calls_same_memory cs st st' :
  same_memory st st' → same_memory (run_calls E cs st) (run_calls E' cs st').
Proof using same_api.
  revert st st'. induction cs as [|c cs IH]; intros st st' Hmem; [done|].
  simpl. by apply IH, run_call_same_memory.
Qed.
End DiskIndependence.

(** X15. What the calls return and what the monitor holds in memory do
    not depend on how the file writes end: under two environments that
    answer requests alike and differ only in the outcomes of writes, any
    sequence of calls leaves the same blacklist, table, details cache and
    request log, and a following fetch, details or check call returns the
    same value. A failed write is never seen by a caller. *)
Theorem write_outcomes_never_reach_callers E E' cs st :
  (∀ n r, api E n r = api E' n r) →
  let st1 := run_calls E cs st in
  let st2 := run_calls E' cs st in
  same_memory st1 st2 ∧
  (∀ k g s a,
     (get_player_achievements E k g s a st1).1
     = (get_player_achievements E' k g s a st2).1) ∧
  (∀ g a l k s,
     (get_achievement_details E g a l k s st1).1
     = (get_achievement_details E' g a l k s st2).1) ∧
  (∀ k g s a p n,
     (check_new_achievements E k g s a p n st1).1
     = (check_new_achievements E' k g s a p n st2).1).
Proof.
  intros Hapi st1 st2.
  assert (Hmem : same_memory st1 st2).
  { apply run_calls_same_memory; [done|]. by repeat split. }
  split; [done|]. split; [|split].
  - intros k g s a. by apply fetch_same_memory.
  - intros g a l k s. by apply details_same_memory.
  - intros k g s a p n.
    destruct (fetch_same_memory E E' Hapi k g s a st1 st2 Hmem) as [Hres _].
    destruct (get_player_achievements E k g s a st1).1 as [fetched|] eqn:Hfetch.
    + rewrite (check_fetched E _ _ _ _ _ _ _ fetched) by done.
      rewrite (check_fetched E' _ _ _ _ _ _ _ fetched) by done.
      simpl. unfold baseline. by destruct Hmem as (_ & -> & _).
    + rewrite (check_not_fetched E) by done.
      by rewrite (check_not_fetched E') by done.
Qed.

Lemma write_outcomes_never_reach_callers_witness :
  (∀ n r, api env_abc n r = api env_abc_bad_disk n r) ∧
  same_memory
    (run_calls env_abc [CallCheck "key" "g" "s" (AppInt 730) "player" "game"] fresh)
    (run_calls env_abc_bad_disk [CallCheck "key" "g" "s" (AppInt 730) "player" "game"]
       fresh) ∧
  achievements_file
    (run_calls env_abc_bad_disk [CallCheck "key" "g" "s" (AppInt 730) "player" "game"]
       fresh) = Damaged.
Proof.
  assert (Hapi : ∀ n r, api env_abc n r = api env_abc_bad_disk n r) by done.
  split; [exact Hapi|]. split; [|vm_compute; reflexivity].
  apply (write_outcomes_never_reach_callers env_abc env_abc_bad_disk
           [CallCheck "key" "g" "s" (AppInt 730) "player" "game"] fresh Hapi).
Defined.

(** ** The degraded path *)






(** ** The primary path on well-formed replies *)

Lemma to_icon_url_str appid i : to_icon_url appid (VStr i) = Ok (icon_value appid i).
Proof.
  unfold icon_value, to_icon_url.
  destruct (negb (truthy (VStr i))); [done|].
  by destruct (is_prefix "http://" i || is_prefix "https://" i).
Qed.

Lemma schema_store_item appid achievements e :
  schema_store appid achievements (schema_item_value e)
  = Ok (<[ KStr (si_name e) := schema_record_of appid e ]> achievements).
Proof.
  unfold schema_store, schema_item_value.
  change (py_get_item _ "displayName" "name") with (Ok (VStr (si_display e))).
  cbn [mbind result_bind].
  change (py_get _ "description" (VStr "")) with (Ok (VStr (si_description e))).
  cbn [mbind result_bind].
  change (py_get _ "icon" VNone) with (Ok (VStr (si_icon e))).
  cbn [mbind result_bind]. rewrite to_icon_url_str. cbn [mbind result_bind].
  change (py_get _ "icongray" VNone) with (Ok (VStr (si_icongray e))).
  cbn [mbind result_bind]. rewrite to_icon_url_str. cbn [mbind result_bind].
  change (py_item _ "name") with (Ok (VStr (si_name e))).
  reflexivity.
Qed.

Lemma schema_loop_items appid entries achievements :
  schema_loop appid (map schema_item_value entries) achievements
  = Ok (foldl (λ m e, <[ KStr (si_name e) := schema_record_of appid e ]> m)
          achievements entries).
Proof.
  revert achievements. induction entries as [|e entries IH]; intros achievements;
    [reflexivity|].
  cbn [map schema_loop foldl]. rewrite schema_store_item. cbn [mbind result_bind].
  apply IH.
Qed.

Lemma read_schema_items appid entries :
  read_schema appid (schema_payload (map schema_item_value entries))
  = Ok (foldl (λ m e, <[ KStr (si_name e) := schema_record_of appid e ]> m) ∅ entries).
Proof.
  unfold read_schema, schema_payload. cbn. apply schema_loop_items.
Qed.

Lemma percents_loop_items ps percents :
  percents_loop (map percent_item_value ps) percents
  = Ok (foldl (λ m p, <[ KStr p.1 := p.2 ]> m) percents ps).
Proof.
  revert percents. induction ps as [|[n v] ps IH]; intros percents; [reflexivity|].
  cbn [map percents_loop foldl]. unfold percent_item_value at 1. cbn. apply IH.
Qed.

Lemma read_percents_items ps :
  read_percents (percents_payload (map percent_item_value ps)) = Ok (percents_map ps).
Proof.
  unfold read_percents, percents_payload. cbn. apply percents_loop_items.
Qed.

Lemma foldl_insert_notin {A K V} `{Countable K} (f : A → K) (g : A → V)
    (es : list A) (acc : gmap K V) (k : K) :
  (∀ e, e ∈ es → f e ≠ k) →
  foldl (λ m e, <[ f e := g e ]> m) acc es !! k = acc !! k.
Proof.
  revert acc. induction es as [|x es IH]; intros acc Hnot; [done|].
  simpl. rewrite IH.
  - apply lookup_insert_ne, Hnot, list_elem_of_here.
  - intros e He. apply Hnot. by apply list_elem_of_further.
Qed.

Lemma foldl_insert_in {A K V} `{Countable K} (f : A → K) (g : A → V)
    (es : list A) (acc : gmap K V) (e : A) :
  NoDup (map f es) → e ∈ es →
  foldl (λ m e, <[ f e := g e ]> m) acc es !! f e = Some (g e).
Proof.
  revert acc. induction es as [|x es IH]; intros acc Hnodup Hin.
  - by apply elem_of_nil in Hin.
  - simpl in *. apply NoDup_cons in Hnodup as [Hx Hnodup].
    apply elem_of_cons in Hin as [->|Hin].
    + rewrite foldl_insert_notin; [apply lookup_insert_eq|].
      intros e He Heq. apply Hx. rewrite <- Heq. by apply list_elem_of_fmap_2.
    + by apply IH.
Qed.

(** X17. The first schema reply is a 200 with well-formed entries of
    distinct names, one of them described, and the percentages reply is a
    200 with well-formed entries: then [get_achievement_details] returns
    one record per schema entry, with its display name, its description,
    its two icons as [to_icon_url] renders them and the percent listed
    under its name ([None] if it is not listed), and nothing else; it has
    sent these two requests only and has stored the mapping in the
    cache. *)
Theorem described_schema_resolves
    E group_id appid lang api_key steamid st entries ps :
  str_appid appid ∉ achievement_blacklist st →
  details_cache st !! (group_id, appid) = None →
  api E (length (requests st)) (GetSchemaForGame appid api_key lang)
    = Response 200 (Some (schema_payload (map schema_item_value entries))) →
  api E (S (length (requests st))) (GetGlobalAchievementPercentagesForApp appid)
    = Response 200 (Some (percents_payload (map percent_item_value ps))) →
  NoDup (map si_name entries) →
  (∃ e, e ∈ entries ∧ si_description e ≠ "") →
  let result := (get_achievement_details E group_id appid lang api_key steamid st).1 in
  let st' := (get_achievement_details E group_id appid lang api_key steamid st).2 in
  (∀ e, e ∈ entries →
     result !! KStr (si_name e)
     = Some {| name := VStr (si_display e);
               description := VStr (si_description e);
               icon := icon_value appid (si_icon e);
               icon_gray := icon_value appid (si_icongray e);
               percent := default VNone (percents_map ps !! KStr (si_name e)) |}) ∧
  (∀ key, (∀ e, e ∈ entries → key ≠ KStr (si_name e)) → result !! key = None) ∧
  requests st'
    = requests st ++ [GetSchemaForGame appid api_key lang;
                      GetGlobalAchievementPercentagesForApp appid] ∧
  details_cache st' !! (group_id, appid) = Some result.
Proof.
  intros Hnot Hmiss Hschema Hpercent Hnodup (e0 & He0 & Hdesc) result st'.
  set (achievements :=
         foldl (λ (m : gmap pykey schema_entry) e,
                  <[ KStr (si_name e) := schema_record_of appid e ]> m) ∅ entries).
  assert (Hin : ∀ e, e ∈ entries →
            achievements !! KStr (si_name e) = Some (schema_record_of appid e)).
  { intros e He. subst achievements.
    apply (foldl_insert_in (λ e, KStr (si_name e)) (schema_record_of appid)); [|done].
    rewrite <- (map_map si_name KStr entries).
    change (NoDup (KStr <$> map si_name entries)).
    apply NoDup_fmap_2; [|done]. by intros ?? [= ->]. }
  assert (Hany : any_schema_description achievements = true).
  { apply bool_decide_eq_true_2. exists (KStr (si_name e0)), (schema_record_of appid e0).
    split; [by apply Hin|]. simpl. by apply String.eqb_neq in Hdesc as ->. }
  assert (Hcall : get_achievement_details E group_id appid lang api_key steamid st
            = (merge_details achievements (percents_map ps) ∅,
               set_details_cache
                 (<[ (group_id, appid) := merge_details achievements (percents_map ps) ∅ ]>
                    (details_cache st))
                 (log_requests [GetSchemaForGame appid api_key lang;
                                GetGlobalAchievementPercentagesForApp appid] st))).
  { unfold get_achievement_details. unfold_M.
    rewrite bool_decide_eq_false_2 by done. rewrite Hmiss.
    cbn [details_loop]. unfold try_language. unfold_M.
    rewrite http_get_eq, Hschema. cbn [Z.eqb Pos.eqb negb].
    rewrite read_schema_items. fold achievements.
    rewrite http_get_eq.
    replace (length (requests (log_requests [GetSchemaForGame appid api_key lang] st)))
      with (S (length (requests st))) by (simpl; rewrite length_app; simpl; lia).
    rewrite Hpercent. unfold percents_of. cbn [Z.eqb Pos.eqb negb default].
    unfold id. rewrite read_percents_items, Hany. by rewrite log_requests_app. }
  subst result st'. rewrite Hcall. cbn [fst snd].
  split; [|split; [|split]].
  - intros e He. by rewrite (merge_details_lookup _ _ _ _ _ (Hin e He)).
  - intros key Hkey. unfold merge_details.
    apply lookup_union_None. split; [|done].
    rewrite map_lookup_imap.
    subst achievements.
    rewrite (foldl_insert_notin (λ e, KStr (si_name e)) (schema_record_of appid)); [done|].
    intros e He Heq. by apply (Hkey e He).
  - done.
  - simpl. apply lookup_insert_eq.
Qed.

Lemma described_schema_resolves_witness :
  (str_appid (AppInt 730) ∉ achievement_blacklist fresh) ∧
  (get_achievement_details
     (env_schema (Response 200 (Some (percents_payload
        (map percent_item_value [("a", VFloat 25 (-1))])))))
     "g" (AppInt 730) "schinese" "key" "s" fresh).1
  !! KStr "a"
  = Some (schema_record "A" "first" "ia" (VFloat 25 (-1))).
Proof.
  assert (Hnot : str_appid (AppInt 730) ∉ achievement_blacklist fresh).
  { vm_compute. discriminate. }
  split; [exact Hnot|].
  refine (proj1 (described_schema_resolves
    (env_schema (Response 200 (Some (percents_payload
       (map percent_item_value [("a", VFloat 25 (-1))])))))
    "g" (AppInt 730) "schinese" "key" "s" fresh
    [ {| si_name := "a"; si_display := "A"; si_description := "first";
         si_icon := "ia"; si_icongray := "ia" |};
      {| si_name := "b"; si_display := "B"; si_description := "second";
         si_icon := "ib"; si_icongray := "ib" |} ]
    [("a", VFloat 25 (-1))] Hnot eq_refl eq_refl eq_refl _ _)
    {| si_name := "a"; si_display := "A"; si_description := "first";
       si_icon := "ia"; si_icongray := "ia" |} _).
  - apply NoDup_cons. split; [|apply NoDup_singleton].
    intros Hin%list_elem_of_singleton. discriminate.
  - eexists. split; [apply list_elem_of_here|discriminate].
  - apply list_elem_of_here.
Defined.
